(** * TypeDoc converter: a shallow embedding of [converter.ts] and of the
    TypeScript option source, with the properties of its dispatch chains,
    cycle guard, diagnostic classifier and compile/resolve pipeline. *)

From Stdlib Require Import ZArith.
From stdpp Require Import gmap strings list sorting.

Local Open Scope Z_scope.
Local Open Scope list_scope.

(** ** The analysis engine's data, as far as the converter looks at it *)

(** [ts.Node]: an object with an identity and a syntax kind. Two nodes are
    the same JavaScript object exactly when the records are equal. *)
Record Node := mkNode { nid : N; kind : N }.

#[global] Instance Node_eq_dec : EqDecision Node.
Proof. solve_decision. Defined.

(** [ts.SourceFile] is a node that carries a file name. *)
Record SourceFile := mkSourceFile { sf_node : Node; fileName : string }.

#[global] Instance SourceFile_eq_dec : EqDecision SourceFile.
Proof. solve_decision. Defined.

(** [ts.Diagnostic]: the file is optional. *)
Record Diagnostic := mkDiagnostic {
  file : option SourceFile;
  code : Z;
  messageText : string
}.

#[global] Instance Diagnostic_eq_dec : EqDecision Diagnostic.
Proof. solve_decision. Defined.

(** [ts.Program], reduced to the five queries the converter makes. *)
Record Program := mkProgram {
  getSourceFiles : list SourceFile;
  getOptionsDiagnostics : list Diagnostic;
  getSyntacticDiagnostics : list Diagnostic;
  getGlobalDiagnostics : list Diagnostic;
  getSemanticDiagnostics : list Diagnostic
}.

(** The two settings of the application that the converter reads. *)
Record Application := mkApplication {
  ignoreCompilerErrors : bool;
  exclude : option (list string)
}.

(** [Array.prototype.includes] on objects: identity of the element. *)
Definition includes {A} `{EqDecision A} (l : list A) (x : A) : bool :=
  bool_decide (x ∈ l).

(** The truth value of [xs.length] in a condition. *)
Definition has_length {A} (l : list A) : bool := negb (Nat.eqb (length l) 0).

(** ** The diagnostic classifier ([Converter.getCompilerErrors]) *)

Definition isRelevantError (includedSourceFiles : list SourceFile)
    (d : Diagnostic) : bool :=
  match file d with
  | None => true
  | Some f => includes includedSourceFiles f
  end.

Definition getCompilerErrors (app : Application) (program : Program)
    (includedSourceFiles : list SourceFile) : list Diagnostic :=
  if ignoreCompilerErrors app then []
  else
    let diagnostics :=
      List.filter (isRelevantError includedSourceFiles) (getOptionsDiagnostics program) in
    if has_length diagnostics then diagnostics
    else
      let diagnostics :=
        List.filter (isRelevantError includedSourceFiles) (getSyntacticDiagnostics program) in
      if has_length diagnostics then diagnostics
      else
        let diagnostics :=
          List.filter (isRelevantError includedSourceFiles) (getGlobalDiagnostics program) in
        if has_length diagnostics then diagnostics
        else
          let diagnostics :=
            List.filter (isRelevantError includedSourceFiles) (getSemanticDiagnostics program) in
          if has_length diagnostics then diagnostics
          else [].

(** The contract in the words of the specification: the four categories in
    their fixed order, each filtered to the included files, and the first
    filtered category that is not empty. *)
Definition categories (program : Program) : list (list Diagnostic) :=
  [ getOptionsDiagnostics program;
    getSyntacticDiagnostics program;
    getGlobalDiagnostics program;
    getSemanticDiagnostics program ].

Definition relevant_categories (program : Program)
    (includedSourceFiles : list SourceFile) : list (list Diagnostic) :=
  List.filter (isRelevantError includedSourceFiles) <$> categories program.

Fixpoint first_non_empty {A} (ls : list (list A)) : list A :=
  match ls with
  | [] => []
  | [] :: rest => first_non_empty rest
  | l :: _ => l
  end.

(** In the words of the specification: a diagnostic is relevant to the
    included files unless it is about a file that is not one of them. *)
Definition concerns (included : list SourceFile) (d : Diagnostic) : Prop :=
  ∀ f, file d = Some f → f ∈ included.

#[global] Instance concerns_dec included d : Decision (concerns included d).
Proof.
  unfold concerns. destruct (file d) as [f|].
  - destruct (decide (f ∈ included)) as [Hin|Hout].
    + left. by intros ? [= <-].
    + right. intros Hall. by apply Hout, Hall.
  - left. by intros ? [=].
Defined.

(** ** The option source ([addTSOptions]) *)

Module TSOptions.

Definition IGNORED_OPTIONS : list string :=
  [ "out"; "version"; "help"; "emitDeclarationOnly"; "watch"; "declaration";
    "declarationDir"; "declarationMap"; "mapRoot"; "sourceMap";
    "inlineSources"; "removeComments"; "incremental"; "tsBuildInfoFile";
    "configFilePath" ]%string.

Definition IGNORED : gset string := list_to_set IGNORED_OPTIONS.

(** The deny-list as the specification spells it out: out, version, help,
    the declaration-emission flags, the source-map flags, the
    incremental-build flags and configFilePath. *)
Definition spelled_out : list string :=
  [ "out"; "version"; "help";
    "emitDeclarationOnly"; "declaration"; "declarationDir"; "declarationMap";
    "mapRoot"; "sourceMap"; "inlineSources";
    "incremental"; "tsBuildInfoFile";
    "configFilePath" ]%string.

(** [Set.prototype.has] *)
Definition has (s : gset string) (x : string) : bool := bool_decide (x ∈ s).

(** The value of [option.type]: one of the type names, or a map from the
    accepted words to their values. *)
Inductive OptionType :=
| TypeName (s : string)
| TypeMap (m : gmap string (Z + string)).

Record DiagnosticMessage := { key : string }.

(** [_ts.CommandLineOption] *)
Record CommandLineOption := {
  name : string;
  shortName : option string;
  description : option DiagnosticMessage;
  type : OptionType
}.

Inductive ParameterScope := TypeDoc | TypeScript.

Inductive ParameterType :=
| String | Number | Boolean | Map | Mixed | Array.

Record DeclarationOption := {
  d_name : string;
  d_short : option string;
  d_help : string;
  d_scope : ParameterScope;
  d_type : ParameterType;
  d_map : option OptionType
}.

Definition createTSDeclaration (option : CommandLineOption) : DeclarationOption :=
  let help := match description option with
              | Some d => key d
              | None => EmptyString
              end in
  let param ty mp :=
    {| d_name := name option; d_short := shortName option; d_help := help;
       d_scope := TypeScript; d_type := ty; d_map := mp |} in
  match type option with
  | TypeName "number" => param Number None
  | TypeName "boolean" => param Boolean None
  | TypeName "string" => param String None
  | TypeName "list" => param Array None
  | TypeName "object" => param Mixed None
  | other => param Map (Some other)
  end.

(** The declarations handed to [container.addDeclarations]. *)
Definition tsDeclarations (optionDeclarations : list CommandLineOption)
    : list DeclarationOption :=
  createTSDeclaration <$>
    List.filter (λ decl, negb (has IGNORED (name decl))) optionDeclarations.

Section Container.
(** The option container is a collaborator: only its [addDeclarations]
    is called. *)
Variable Options : Type.
Variable addDeclarations : list DeclarationOption → Options → Options.

Definition addTSOptions (optionDeclarations : list CommandLineOption)
    (container : Options) : Options :=
  addDeclarations (tsDeclarations optionDeclarations) container.
End Container.

End TSOptions.

(** ** The reflection model, as far as the converter looks at it *)

Record Reflection := mkReflection { id : N; name : string }.

#[global] Instance Reflection_eq_dec : EqDecision Reflection.
Proof. solve_decision. Defined.

(** A JavaScript object whose keys are non-negative integers: its own
    properties, each key once, in the order in which they were created. *)
Record JSObject (V : Type) := mkObject { properties : list (N * V) }.
Arguments mkObject {V}.
Arguments properties {V}.

(** [o[k]]: the value of the property, if the object has it. *)
Fixpoint properties_lookup {V} (k : N) (l : list (N * V)) : option V :=
  match l with
  | [] => None
  | (k', v) :: l' => if decide (k' = k) then Some v else properties_lookup k l'
  end.

(** [o[k] = v]: an existing property keeps its place, a new one is
    created after the others. *)
Fixpoint properties_set {V} (k : N) (v : V) (l : list (N * V)) : list (N * V) :=
  match l with
  | [] => [(k, v)]
  | (k', v') :: l' =>
      if decide (k' = k) then (k, v) :: l' else (k', v') :: properties_set k v l'
  end.

#[global] Instance JSObject_lookup {V} : Lookup N V (JSObject V) :=
  λ k o, properties_lookup k (properties o).

#[global] Instance JSObject_empty {V} : Empty (JSObject V) := mkObject [].

#[global] Instance JSObject_insert {V} : Insert N V (JSObject V) :=
  λ k v o, mkObject (properties_set k v (properties o)).

(** [delete o[k]] *)
#[global] Instance JSObject_delete {V} : Delete N (JSObject V) :=
  λ k o, mkObject (filter (λ kv, kv.1 ≠ k) (properties o)).

(** The keys of the object's own properties. *)
#[global] Instance JSObject_dom {V} : Dom (JSObject V) (gset N) :=
  λ o, list_to_set (properties o).*1.

(** [ProjectReflection]: its name, the mapping from ids to reflections, and
    the by-name links (a name and the id it points to). *)
Record ProjectReflection := mkProject {
  p_name : string;
  reflections : JSObject Reflection;
  references : list (string * N)
}.

(** Modelled from the spec: [ProjectReflection.getDanglingReferences] lives
    in the models, which are not among the sources. A dangling reference is
    a by-name link that resolves to no existing reflection; each such name
    is reported once. The pipeline below takes the method as a parameter;
    this definition is the instance used in the examples. *)
Definition danglingNames (p : ProjectReflection) : list string :=
  remove_dups
    (fst <$> List.filter (λ ref, bool_decide (reflections p !! ref.2 = None))
                         (references p)).

(** The names of the events the converter triggers itself. *)
Inductive EventName :=
| EVENT_BEGIN
| EVENT_END
| EVENT_RESOLVE_BEGIN
| EVENT_RESOLVE
| EVENT_RESOLVE_END.

#[global] Instance EventName_eq_dec : EqDecision EventName.
Proof. solve_decision. Defined.

(** What the run leaves behind for an observer, in order: the events
    triggered (for the resolve event with the key of the iteration and the
    reflection passed), the warnings logged, the calls of [convertNode] and
    its dispatches, and the calls made on type converters (by identity). *)
Inductive Entry :=
| Triggered (event : EventName) (payload : option (N * Reflection))
| Warned (message : string)
| ConvertNodeCalled (node : Node)
| Dispatched (node : Node)
| TypeAtLocationAsked (node : Node)
| SupportsNodeAsked (converter : N)
| ConvertNodeBy (converter : N)
| SupportsTypeAsked (converter : N)
| ConvertTypeBy (converter : N).

(** [Array.prototype.sort] with a comparator: a stable sort (ECMAScript
    2019). [a] is placed before [b] when [cmp a b] is negative, and elements
    that compare equal keep their order. *)
Fixpoint sort_insert {A} (cmp : A → A → Z) (x : A) (l : list A) : list A :=
  match l with
  | [] => [x]
  | y :: l' => if (cmp x y <=? 0) then x :: y :: l' else y :: sort_insert cmp x l'
  end.

Definition Array_sort {A} (cmp : A → A → Z) (l : list A) : list A :=
  foldr (sort_insert cmp) [] l.

(** [indexOf] followed by [splice(index, 1)] when the index is not -1: the
    first element that is the given object is removed. *)
Fixpoint remove_first {A} (same : A → bool) (l : list A) : list A :=
  match l with
  | [] => []
  | y :: l' => if same y then l' else y :: remove_first same l'
  end.

(** A key is an array index when it is below 2^32 - 1. *)
Definition is_array_index (k : N) : bool := (k <? 4294967295)%N.

(** Each key once, at the place where it occurs first. *)
Fixpoint first_occurrences (l : list N) : list N :=
  match l with
  | [] => []
  | k :: l' => k :: filter (λ k', k' ≠ k) (first_occurrences l')
  end.

(** The own keys of an object in creation order. *)
Definition own_keys {V} (o : JSObject V) : list N :=
  first_occurrences (properties o).*1.

(** Enumeration of the keys of an object whose keys are integers
    ([for ... in]), fixed when the loop starts: the keys that are array
    indices in ascending order, then the other keys in the order in which
    their properties were created. *)
Definition for_in_keys {V} (o : JSObject V) : list N :=
  merge_sort N.le (filter (λ k, is_array_index k = true) (own_keys o))
  ++ filter (λ k, is_array_index k = false) (own_keys o).

Section Conversion.

(** The engine's types, the documentation types, and whatever state the
    plugins (event listeners, converters) keep for themselves. *)
Context {TsType DocType PluginState : Type}.

(** What listeners and converters can read and change. The project is one
    object during a run; the store holds its current contents. *)
Record Store := mkStore {
  project : ProjectReflection;
  plugins : PluginState
}.

(** The run's state: the arrays allocated so far, the context's
    [visitStack] (a reference to one of them), its program, the store,
    and the observations. *)
Record World := mkWorld {
  heap : gmap N (list Node);
  visitStack : N;
  program : Program;
  store : Store;
  trace : list Entry
}.

Definition log (e : Entry) (w : World) : World :=
  mkWorld (heap w) (visitStack w) (program w) (store w) (trace w ++ [e]).

(** Several observations in a row. *)
Definition logs (es : list Entry) (w : World) : World :=
  mkWorld (heap w) (visitStack w) (program w) (store w) (trace w ++ es).

Definition set_store (s : Store) (w : World) : World :=
  mkWorld (heap w) (visitStack w) (program w) s (trace w).

Definition set_visitStack (l : N) (w : World) : World :=
  mkWorld (heap w) l (program w) (store w) (trace w).

(** The contents of the array [context.visitStack] refers to. *)
Definition visited (w : World) : list Node :=
  default [] (heap w !! visitStack w).

(** The body of a node converter's [convert], as the converter sees it
    from outside: it reads and updates the store, calls back into
    [convertNode] for nested nodes, and returns a reflection or nothing. *)
Inductive Conv :=
| Return (result : option Reflection)
| Get (k : Store → Conv)
| Put (s : Store) (k : Conv)
| ConvertChild (node : Node) (k : option Reflection → Conv).

Record ConverterNodeComponent := mkNodeComponent {
  nc_id : N;
  supports : list N;
  nc_convert : Node → Conv
}.

(** A type converter: its identity, its priority and the members it may
    or may not have. Predicates and conversions see the store. *)
Record ConverterTypeComponent := mkTypeComponent {
  tc_id : N;
  priority : Z;
  tc_supportsNode : option (Store → Node → option TsType → bool);
  tc_convertNode : option (Store → Node → option TsType → option DocType);
  tc_supportsType : option (Store → TsType → bool);
  tc_convertType : option (Store → TsType → option DocType)
}.

(** The same object seen through the casts [<TypeNodeConverter>] and
    [<TypeTypeConverter>]: identity, priority and the pair of members the
    chain calls. *)
Record Affinity (S C : Type) := mkAffinity {
  a_id : N;
  a_priority : Z;
  a_supports : S;
  a_convert : C
}.
Arguments mkAffinity {S C}.
Arguments a_id {S C}.
Arguments a_priority {S C}.
Arguments a_supports {S C}.
Arguments a_convert {S C}.

Definition TypeNodeConverter : Type :=
  Affinity (Store → Node → option TsType → bool)
           (Store → Node → option TsType → option DocType).

Definition TypeTypeConverter : Type :=
  Affinity (Store → TsType → bool) (Store → TsType → option DocType).

(** ['supportsNode' in converter && 'convertNode' in converter] *)
Definition asTypeNodeConverter (c : ConverterTypeComponent)
    : option TypeNodeConverter :=
  match tc_supportsNode c, tc_convertNode c with
  | Some s, Some k => Some (mkAffinity (tc_id c) (priority c) s k)
  | _, _ => None
  end.

(** ['supportsType' in converter && 'convertType' in converter] *)
Definition asTypeTypeConverter (c : ConverterTypeComponent)
    : option TypeTypeConverter :=
  match tc_supportsType c, tc_convertType c with
  | Some s, Some k => Some (mkAffinity (tc_id c) (priority c) s k)
  | _, _ => None
  end.

Inductive ConverterComponent :=
| NodeComponent (c : ConverterNodeComponent)
| TypeComponent (c : ConverterTypeComponent)
| OtherComponent.

(** The three registries of the [Converter] class. *)
Record Converter := mkConverter {
  nodeConverters : gmap N ConverterNodeComponent;
  typeNodeConverters : list TypeNodeConverter;
  typeTypeConverters : list TypeTypeConverter
}.

Definition initialize : Converter := mkConverter ∅ [] [].

Definition addNodeConverter (converter : ConverterNodeComponent)
    (cv : Converter) : Converter :=
  mkConverter
    (foldl (λ m k, <[k := converter]> m) (nodeConverters cv) (supports converter))
    (typeNodeConverters cv) (typeTypeConverters cv).

(** [(a, b) => b.priority - a.priority] *)
Definition by_priority {S C} (a b : Affinity S C) : Z :=
  a_priority b - a_priority a.

Definition addTypeConverter (converter : ConverterTypeComponent)
    (cv : Converter) : Converter :=
  let cv :=
    match asTypeNodeConverter converter with
    | Some c =>
        mkConverter (nodeConverters cv)
          (Array_sort by_priority (typeNodeConverters cv ++ [c]))
          (typeTypeConverters cv)
    | None => cv
    end in
  match asTypeTypeConverter converter with
  | Some c =>
      mkConverter (nodeConverters cv) (typeNodeConverters cv)
        (Array_sort by_priority (typeTypeConverters cv ++ [c]))
  | None => cv
  end.

(** The part of [addComponent] that follows [super.addComponent]. *)
Definition addComponent (component : ConverterComponent) (cv : Converter)
    : Converter :=
  match component with
  | NodeComponent c => addNodeConverter c cv
  | TypeComponent c => addTypeConverter c cv
  | OtherComponent => cv
  end.

Definition removeNodeConverter (converter : ConverterNodeComponent)
    (cv : Converter) : Converter :=
  mkConverter
    (filter (λ kc, nc_id kc.2 ≠ nc_id converter) (nodeConverters cv))
    (typeNodeConverters cv) (typeTypeConverters cv).

(** [chain.indexOf(converter)] compares objects: the entry is the component. *)
Definition is_component {S C} (converter : ConverterTypeComponent)
    (c : Affinity S C) : bool :=
  bool_decide (a_id c = tc_id converter).

Definition removeTypeConverter (converter : ConverterTypeComponent)
    (cv : Converter) : Converter :=
  let typeTypeConverters' :=
    remove_first (is_component converter) (typeTypeConverters cv) in
  let typeNodeConverters' :=
    remove_first (is_component converter) (typeNodeConverters cv) in
  mkConverter (nodeConverters cv) typeNodeConverters' typeTypeConverters'.

(** The part of [removeComponent] that follows [super.removeComponent]. *)
Definition removeComponent (component : option ConverterComponent)
    (cv : Converter) : Converter :=
  match component with
  | Some (NodeComponent c) => removeNodeConverter c cv
  | Some (TypeComponent c) => removeTypeConverter c cv
  | _ => cv
  end.

Definition removeAllComponents (cv : Converter) : Converter :=
  mkConverter ∅ [] [].

(** *** Collaborators of a run *)

Record Env := mkEnv {
  app : Application;                              (* [this.application] *)
  converterName : string;                         (* [this.name] *)
  normalizePath : string → string;
  createProgram : list string → Program;          (* [ts.createProgram] *)
  mm_match : string → string → bool;              (* [Minimatch.match] *)
  getTypeAtLocation : Node → option TsType;       (* [context.getTypeAtLocation] *)
  getDanglingReferences : ProjectReflection → list string;
  (* the listeners registered for an event, run in order *)
  listeners : EventName → option Reflection → Store → Store
}.

Variable env : Env.

(** Modelled from the spec: [trigger] is inherited from the event
    dispatcher, which is not among the sources. The listeners of the event
    run synchronously, in registration order, and may read and change the
    project before control returns to the converter. *)
Definition trigger (event : EventName) (payload : option (N * Reflection))
    (w : World) : World :=
  log (Triggered event payload)
      (set_store (listeners env event (snd <$> payload) (store w)) w).

(** [this.owner.logger.warn(message)] *)
Definition warn (message : string) (w : World) : World := log (Warned message) w.

(** *** Cycle-safe node conversion ([Converter.convertNode]) *)

(** [context.visitStack = oldVisitStack.slice()]: a new array is allocated,
    filled with the old contents, and made the context's stack. *)
Definition slice_visitStack (w : World) : World :=
  let l := fresh (dom (heap w)) in
  mkWorld (<[l := visited w]> (heap w)) l (program w) (store w) (trace w).

(** [context.visitStack.push(node)]: the array the context refers to is
    extended in place. *)
Definition push_visitStack (node : Node) (w : World) : World :=
  mkWorld (<[visitStack w := visited w ++ [node]]> (heap w))
          (visitStack w) (program w) (store w) (trace w).

Definition enter (node : Node) (w : World) : World :=
  push_visitStack node (slice_visitStack w).

(** A run that needs more nested calls than the fuel allows gives [None]. *)
Definition Outcome : Type := option (option Reflection * World).

(** The body of a converter, run with [rec] for the calls back into
    [convertNode]. *)
Fixpoint exec (rec : Node → World → Outcome) (body : Conv) (w : World)
    : Outcome :=
  match body with
  | Return result => Some (result, w)
  | Get k => exec rec (k (store w)) w
  | Put s k => exec rec k (set_store s w)
  | ConvertChild node k =>
      match rec node w with
      | Some (r, w') => exec rec (k r) w'
      | None => None
      end
  end.

(** [if (node.kind in this.nodeConverters) result = this.nodeConverters[node.kind].convert(context, node)] *)
Definition dispatch (rec : Node → World → Outcome) (cv : Converter)
    (node : Node) (w : World) : Outcome :=
  match nodeConverters cv !! kind node with
  | Some converter =>
      exec rec (nc_convert converter node) (log (Dispatched node) w)
  | None => Some (None, w)
  end.

Fixpoint convertNode (fuel : nat) (cv : Converter) (node : Node) (w : World)
    : Outcome :=
  match fuel with
  | O => None
  | Datatypes.S fuel' =>
      let w := log (ConvertNodeCalled node) w in
      if includes (visited w) node then Some (None, w)
      else
        let oldVisitStack := visitStack w in
        let w := enter node w in
        match dispatch (convertNode fuel' cv) cv node w with
        | Some (result, w) => Some (result, set_visitStack oldVisitStack w)
        | None => None
        end
  end.

(** The nodes a converter body may hand to [convertNode] all belong to [U]. *)
Fixpoint calls_within (U : list Node) (body : Conv) : Prop :=
  match body with
  | Return _ => True
  | Get k => ∀ s, calls_within U (k s)
  | Put _ k => calls_within U k
  | ConvertChild node k => node ∈ U ∧ ∀ r, calls_within U (k r)
  end.

(** The node structure is finite: converting a node of [U] only ever asks
    for conversions of nodes of [U] (which may well be the node itself). *)
Definition confined (U : list Node) (cv : Converter) : Prop :=
  ∀ node converter, node ∈ U →
    nodeConverters cv !! kind node = Some converter →
    calls_within U (nc_convert converter node).

(** The context's stack reference points to an allocated array. *)
Definition well_formed (w : World) : Prop := visitStack w ∈ dom (heap w).

(** *** Type conversion ([Converter.convertType]) *)

(** One [for ... of] loop over a chain; [None] when the loop ends without
    having returned. *)
Fixpoint scan {S C} (asked done : N → Entry) (holds : S → bool)
    (run : C → option DocType) (chain : list (Affinity S C)) (w : World)
    : option (option DocType) * World :=
  match chain with
  | [] => (None, w)
  | converter :: rest =>
      let w := log (asked (a_id converter)) w in
      if holds (a_supports converter)
      then (Some (run (a_convert converter)), log (done (a_id converter)) w)
      else scan asked done holds run rest w
  end.

Definition scanTypes (cv : Converter) (type : option TsType) (w : World)
    : option DocType * World :=
  match type with
  | Some t =>
      match scan SupportsTypeAsked ConvertTypeBy
                 (λ s, s (store w) t) (λ c, c (store w) t)
                 (typeTypeConverters cv) w with
      | (Some result, w) => (result, w)
      | (None, w) => (None, w)
      end
  | None => (None, w)
  end.

Definition convertType (cv : Converter) (node : option Node)
    (type : option TsType) (w : World) : option DocType * World :=
  match node with
  | Some n =>
      let '(type, w) :=
        match type with
        | Some t => (Some t, w)
        | None => (getTypeAtLocation env n, log (TypeAtLocationAsked n) w)
        end in
      match scan SupportsNodeAsked ConvertNodeBy
                 (λ s, s (store w) n type) (λ c, c (store w) n type)
                 (typeNodeConverters cv) w with
      | (Some result, w) => (result, w)
      | (None, w) => scanTypes cv type w
      end
  | None => scanTypes cv type w
  end.

(** [_.zip(nodes, types)]: as many pairs as the longer array has elements,
    the pair at an index holding what each array has there, or nothing. *)
Definition lodash_zip {A B} (xs : list A) (ys : list B)
    : list (option A * option B) :=
  (λ i, (xs !! i, ys !! i)) <$> seq 0 (Nat.max (length xs) (length ys)).

(** The [forEach] of [convertTypes]: each pair is converted in turn and
    the types produced are pushed onto the result. [convertOne] is the call
    [this.convertType(context, node, type)], which may change the context. *)
Fixpoint convertPairs
    (convertOne : option Node → option TsType → World → option DocType * World)
    (pairs : list (option Node * option TsType)) (w : World)
    : list DocType * World :=
  match pairs with
  | [] => ([], w)
  | (node, type) :: rest =>
      let '(converted, w) := convertOne node type w in
      let '(result, w) := convertPairs convertOne rest w in
      (match converted with
       | Some t => t :: result
       | None => result
       end, w)
  end.

Definition convertTypes (cv : Converter) (nodes : list Node)
    (types : list TsType) (w : World) : list DocType * World :=
  convertPairs (convertType cv) (lodash_zip nodes types) w.

(** *** The pipeline ([compile], [resolve], [convert]) *)

(** [createMinimatch(this.application.exclude || [])]: one matcher per
    pattern; a file is excluded when some matcher matches its name. *)
Definition isExcluded (file : SourceFile) : bool :=
  existsb (λ mm, mm_match env mm (fileName file)) (default [] (exclude (app env))).

Definition includedSourceFiles (p : Program) : list SourceFile :=
  List.filter (λ file, negb (isExcluded file)) (getSourceFiles p).

(** [includedSourceFiles.forEach(sourceFile => this.convertNode(context, sourceFile))] *)
Fixpoint convertFiles (fuel : nat) (cv : Converter) (files : list SourceFile)
    (w : World) : option World :=
  match files with
  | [] => Some w
  | sourceFile :: rest =>
      match convertNode fuel cv (sf_node sourceFile) w with
      | Some (_, w) => convertFiles fuel cv rest w
      | None => None
      end
  end.

Definition compile (fuel : nat) (cv : Converter) (w : World)
    : option (list Diagnostic * World) :=
  let included := includedSourceFiles (program w) in
  let errors := getCompilerErrors (app env) (program w) included in
  if has_length errors then Some (errors, w)
  else
    match convertFiles fuel cv included w with
    | Some w => Some ([], w)
    | None => None
    end.

(** The body of the [for (const id in project.reflections)] loop, for the
    keys still to come. A key that is no longer in the object when its
    turn comes is passed over; keys added meanwhile are not among the keys
    of this enumeration. *)
Fixpoint resolveEach (keys : list N) (w : World) : World :=
  match keys with
  | [] => w
  | id :: rest =>
      match reflections (project (store w)) !! id with
      | Some reflection =>
          resolveEach rest (trigger EVENT_RESOLVE (Some (id, reflection)) w)
      | None => resolveEach rest w
      end
  end.

Definition resolve (w : World) : ProjectReflection * World :=
  let w := trigger EVENT_RESOLVE_BEGIN None w in
  let w := resolveEach (for_in_keys (reflections (project (store w)))) w in
  let w := trigger EVENT_RESOLVE_END None w in
  (project (store w), w).

Definition newline : string := String (Ascii.ascii_of_nat 10) EmptyString.

Definition danglingMessage (dangling : list string) : string :=
  String.concat newline
    ([ "Some names refer to reflections that do not exist.";
       "This can be caused by exporting a reflection only under a different name than it is declared when excludeNotExported is set";
       "or by a plugin removing reflections without removing references. The names that cannot be resolved are:"
     ]%string ++ dangling).

(** The result holds the project object; its contents are read when the
    run has returned. *)
Record ConverterResult := mkResult {
  errors : list Diagnostic;
  result_project : ProjectReflection
}.

(** Modelled from the spec: the constructor of [Context] is not among the
    sources. A context lives for one [convert] call; it starts with an empty
    visit stack of its own and a new project that holds no reflection. *)
Definition newContext (p : Program) (ps : PluginState) : World :=
  mkWorld {[ 0%N := [] ]} 0%N p (mkStore (mkProject (converterName env) ∅ []) ps) [].

Definition convert (fuel : nat) (cv : Converter) (fileNames : list string)
    (ps : PluginState) : option (ConverterResult * World) :=
  let normalizedFiles := normalizePath env <$> fileNames in
  let p := createProgram env normalizedFiles in
  let w := newContext p ps in
  let w := trigger EVENT_BEGIN None w in
  match compile fuel cv w with
  | None => None
  | Some (errors, w) =>
      let '(proj, w) := resolve w in
      let dangling := getDanglingReferences env proj in
      let w := if has_length dangling then warn (danglingMessage dangling) w else w in
      let w := trigger EVENT_END None w in
      Some (mkResult errors (project (store w)), w)
  end.

(** *** Reading the observations *)

(** The keys for which the resolve event was triggered, in order. *)
Definition resolved_ids (tr : list Entry) : list N :=
  omap (λ e, match e with
             | Triggered EVENT_RESOLVE (Some (id, _)) => Some id
             | _ => None
             end) tr.

(** The resolve events triggered, in order: the key and the reflection
    passed. *)
Definition resolve_events (tr : list Entry) : list (N * Reflection) :=
  omap (λ e, match e with
             | Triggered EVENT_RESOLVE (Some kr) => Some kr
             | _ => None
             end) tr.

(** The warnings logged, in order. *)
Definition warnings (tr : list Entry) : list string :=
  omap (λ e, match e with Warned m => Some m | _ => None end) tr.

(** The nodes [convertNode] was called on, in order. *)
Definition converted_nodes (tr : list Entry) : list Node :=
  omap (λ e, match e with ConvertNodeCalled n => Some n | _ => None end) tr.

(** The observations a node conversion can add. *)
Definition node_entry (e : Entry) : Prop :=
  match e with
  | ConvertNodeCalled _ | Dispatched _ => True
  | _ => False
  end.

(** No listener of the resolve event takes the key [id] out of the
    mapping. *)
Definition never_removed (id : N) : Prop :=
  ∀ r s, id ∈ dom (reflections (project s)) →
         id ∈ dom (reflections (project (listeners env EVENT_RESOLVE (Some r) s))).

(** What is added to the observations between two worlds. *)
Definition added (w w' : World) : list Entry :=
  drop (length (trace w)) (trace w').

(** What a node conversion leaves as it found it: the context's stack
    reference, the contents of every array that existed, and the program;
    the observations only grow, by entries of node conversions. *)
Definition untouched (w w' : World) : Prop :=
  visitStack w' = visitStack w
  ∧ (∀ l, l ∈ dom (heap w) → heap w' !! l = heap w !! l)
  ∧ program w' = program w
  ∧ ∃ es, trace w' = trace w ++ es ∧ Forall node_entry es.

(** The nodes of [U] that are not on the visit stack. *)
Definition remaining (U : list Node) (w : World) : nat :=
  length (filter (λ x, x ∉ visited w) U).


(** *** The contract of [convertType], in the words of the specification *)

(** The converters of a chain consulted in a scan, and the one that
    converts: the chain up to and including the first converter whose
    predicate holds; the whole chain and no converter when none holds. *)
Definition first_supporting {S C} (holds : S → bool) (chain : list (Affinity S C))
    : list (Affinity S C) * option (Affinity S C) :=
  match list_find (λ c, holds (a_supports c) = true) chain with
  | Some (i, c) => (take (Datatypes.S i) chain, Some c)
  | None => (chain, None)
  end.

Definition convertType_contract (cv : Converter) (node : option Node)
    (type : option TsType) (w : World) : option DocType * World :=
  (* the node's type is resolved only when a node is given without a type *)
  let type' :=
    match node, type with
    | Some n, None => getTypeAtLocation env n
    | _, _ => type
    end in
  let resolved :=
    match node, type with
    | Some n, None => [TypeAtLocationAsked n]
    | _, _ => []
    end in
  (* the node-based chain is scanned when a node is given *)
  let '(consulted, hit) :=
    match node with
    | Some n => first_supporting (λ s, s (store w) n type') (typeNodeConverters cv)
    | None => ([], None)
    end in
  let asked := resolved ++ (SupportsNodeAsked ∘ a_id <$> consulted) in
  match node, hit with
  | Some n, Some c =>
      (a_convert c (store w) n type', logs (asked ++ [ConvertNodeBy (a_id c)]) w)
  | _, _ =>
      (* otherwise the type-based chain, when there is a type *)
      match type' with
      | Some t =>
          let '(consulted', hit') :=
            first_supporting (λ s, s (store w) t) (typeTypeConverters cv) in
          (hit' ≫= (λ c, a_convert c (store w) t),
           logs (asked ++ (SupportsTypeAsked ∘ a_id <$> consulted')
                       ++ (ConvertTypeBy ∘ a_id <$> option_list hit')) w)
      | None => (None, logs asked w)
      end
  end.

(** *** Registration histories *)

(** A step of the set-up: a type converter is registered or removed. *)
Inductive Registration :=
| Register (c : ConverterTypeComponent)
| Unregister (c : ConverterTypeComponent).


Definition perform (cv : Converter) (op : Registration) : Converter :=
  match op with
  | Register c => addTypeConverter c cv
  | Unregister c => removeTypeConverter c cv
  end.

(** The converter after a history of registrations and removals. *)
Definition after (ops : list Registration) : Converter :=
  foldl perform initialize ops.



(** Descending priority along a chain. *)
Definition descending {S C} (chain : list (Affinity S C)) : Prop :=
  StronglySorted (λ a b, a_priority b ≤ a_priority a) chain.


End Conversion.

Arguments Store : clear implicits.
Arguments World : clear implicits.
Arguments Conv : clear implicits.
Arguments Outcome : clear implicits.
Arguments ConverterNodeComponent : clear implicits.
Arguments ConverterTypeComponent : clear implicits.
Arguments TypeNodeConverter : clear implicits.
Arguments TypeTypeConverter : clear implicits.
Arguments ConverterComponent : clear implicits.
Arguments Converter : clear implicits.
Arguments Env : clear implicits.
Arguments Registration : clear implicits.
Arguments mkAffinity {S C}.
Arguments a_id {S C}.
Arguments a_priority {S C}.
Arguments a_supports {S C}.
Arguments a_convert {S C}.

(** ** Small instances used in the examples *)

Module Examples.

Definition a_ts : SourceFile := mkSourceFile (mkNode 1 290) "src/a.ts".
Definition b_ts : SourceFile := mkSourceFile (mkNode 2 290) "src/b.ts".

Definition bad_option : Diagnostic := mkDiagnostic None 5023 "Unknown compiler option".
Definition syntax_in_a : Diagnostic := mkDiagnostic (Some a_ts) 1005 "';' expected".
Definition semantic_in_b : Diagnostic := mkDiagnostic (Some b_ts) 2322 "Type mismatch".

Definition strict : Application := mkApplication false None.
Definition lenient : Application := mkApplication true None.

Definition broken_options : Program :=
  mkProgram [a_ts; b_ts] [bad_option] [syntax_in_a] [] [semantic_in_b].

Definition global_only : Program :=
  mkProgram [a_ts; b_ts] [] [] [bad_option] [semantic_in_b].

(** Engine types are handles, documentation types their rendering, and
    the plugins keep no state of their own. *)
Definition T : Type := N.
Definition D : Type := string.
Definition P : Type := unit.

(** Three type converters: two of priority 0 that take part in both
    chains, and one of priority 5 that only has the node-based pair. *)
Definition literal : ConverterTypeComponent T D P :=
  mkTypeComponent 1 0
    (Some (λ _ _ t, bool_decide (t = Some 7%N))) (Some (λ _ _ _, Some "literal"%string))
    (Some (λ _ t, bool_decide (t = 7%N))) (Some (λ _ _, Some "literal"%string)).

Definition array : ConverterTypeComponent T D P :=
  mkTypeComponent 2 5
    (Some (λ _ n _, bool_decide (kind n = 174%N))) (Some (λ _ _ _, Some "array"%string))
    None None.

Definition fallback : ConverterTypeComponent T D P :=
  mkTypeComponent 3 0
    (Some (λ _ _ _, true)) (Some (λ _ _ _, Some "unknown"%string))
    (Some (λ _ _, true)) (Some (λ _ _, Some "unknown"%string)).

Definition history : list (Registration T D P) :=
  [ Register literal; Register array; Register fallback; Unregister array;
    Register array ].

(** A self-referential declaration, [type A = A[]]: converting the node
    asks for the conversion of the node itself. *)
Definition alias_A : Node := mkNode 10 247.

Definition aliasConverter : ConverterNodeComponent P :=
  mkNodeComponent 40 [247%N]
    (λ node, ConvertChild node (λ inner,
       Get (λ s,
         Put (mkStore
                (mkProject (p_name (project s))
                   (<[1%N := mkReflection 1 "A"]> (reflections (project s)))
                   (references (project s)))
                (plugins s))
             (Return (Some (mkReflection 1 "A")))))).

Definition cyclic : Converter T D P := addNodeConverter aliasConverter initialize.

Definition clean : Program := mkProgram [a_ts] [] [] [] [].

Definition quiet : Env T P :=
  mkEnv strict "project" (λ path, path) (λ _, clean) (λ _ _, false) (λ _, None)
        danglingNames (λ _ _ s, s).

Definition start : World P := newContext quiet clean tt.



(** A run whose options are in error, with a plugin that records, when the
    run begins, a link to a reflection that does not exist. *)
Definition linking : Env T P :=
  mkEnv strict "project" (λ path, path) (λ _, broken_options) (λ _ _, false) (λ _, None)
        danglingNames
        (λ event payload s,
           match event with
           | EVENT_BEGIN =>
               mkStore
                 (mkProject (p_name (project s)) (reflections (project s))
                    (("Missing"%string, 9%N) :: references (project s)))
                 (plugins s)
           | _ => s
           end).

(** Two options of the engine: one that controls what the engine emits,
    one that controls type checking. *)
Definition removeComments_option : TSOptions.CommandLineOption :=
  {| TSOptions.name := "removeComments"; TSOptions.shortName := None;
     TSOptions.description := None; TSOptions.type := TSOptions.TypeName "boolean" |}.

Definition strict_option : TSOptions.CommandLineOption :=
  {| TSOptions.name := "strict"; TSOptions.shortName := None;
     TSOptions.description := None; TSOptions.type := TSOptions.TypeName "boolean" |}.

(** A run without diagnostics, with a plugin that records, when the run
    begins, a link to a reflection that does not exist. *)
Definition dangling : Env T P :=
  mkEnv strict "project" (λ path, path) (λ _, clean) (λ _ _, false) (λ _, None)
        danglingNames
        (λ event payload s,
           match event with
           | EVENT_BEGIN =>
               mkStore
                 (mkProject (p_name (project s)) (reflections (project s))
                    (("Missing"%string, 9%N) :: references (project s)))
                 (plugins s)
           | _ => s
           end).




(** A program with a syntax error in [src/a.ts] and a type error in
    [src/b.ts], documented with [src/a.ts] excluded; patterns match file
    names literally here. *)
Definition broken_files : Program :=
  mkProgram [a_ts; b_ts] [] [syntax_in_a] [] [semantic_in_b].

Definition excluding : Env T P :=
  mkEnv (mkApplication false (Some ["src/a.ts"%string])) "project" (λ path, path)
        (λ _, broken_files) String.eqb (λ _, None) danglingNames (λ _ _ s, s).

(** A project whose reflections were created in the order 4294967296, 2,
    4294967295, 1. *)
Definition late_ids : World P :=
  mkWorld {[ 0%N := [] ]} 0%N clean
    (mkStore
       (mkProject "project"
          (<[1%N := mkReflection 1 "D"]>
             (<[4294967295%N := mkReflection 4294967295 "C"]>
                (<[2%N := mkReflection 2 "B"]>
                   (<[4294967296%N := mkReflection 4294967296 "A"]> ∅)))) [])
       tt)
    [].


End Examples.

(** * Properties *)

(** ** Strings *)

Lemma append_assoc (a b c : string) : (a +:+ b) +:+ c = a +:+ b +:+ c.
Proof.
  induction a as [|ch a IH]; [done|].
  change (String ch ((a +:+ b) +:+ c) = String ch (a +:+ b +:+ c)).
  by rewrite IH.
Qed.

Lemma append_empty_r (a : string) : a +:+ EmptyString = a.
Proof.
  induction a as [|ch a IH]; [done|].
  change (String ch (a +:+ EmptyString) = String ch a).
  by rewrite IH.
Qed.

(** Every joined string occurs in the result of [String.concat], the
    counterpart of [Array.prototype.join]. *)
Lemma concat_mentions (sep : string) (l : list string) (n : string) :
  n ∈ l → ∃ pre post, String.concat sep l = pre +:+ n +:+ post.
Proof.
  induction l as [|x xs IH]; intros Hin; [by apply elem_of_nil in Hin|].
  apply elem_of_cons in Hin as [->|Hin].
  - destruct xs as [|y ys].
    + exists EmptyString, EmptyString.
      change (x = x +:+ EmptyString). by rewrite append_empty_r.
    + exists EmptyString, (sep +:+ String.concat sep (y :: ys)). reflexivity.
  - destruct (IH Hin) as (pre & post & Heq).
    destruct xs as [|y ys]; [by apply elem_of_nil in Hin|].
    exists (x +:+ sep +:+ pre), post.
    change (String.concat sep (x :: y :: ys))
      with (x +:+ sep +:+ String.concat sep (y :: ys)).
    by rewrite Heq, !append_assoc.
Qed.


(** ** The diagnostic classifier *)

Lemma has_length_nil {A} (l : list A) : has_length l = false ↔ l = [].
Proof. destruct l; cbn; split; congruence. Qed.

Lemma first_non_empty_cons {A} (l : list A) (rest : list (list A)) :
  first_non_empty (l :: rest) = if has_length l then l else first_non_empty rest.
Proof. by destruct l. Qed.

(** What [first_non_empty] picks: the category at the first index whose
    list is not empty, and nothing when there is none. *)
Lemma first_non_empty_at {A} (ls : list (list A)) (i : nat) (l : list A) :
  ls !! i = Some l → l ≠ [] →
  (∀ j c, (j < i)%nat → ls !! j = Some c → c = []) →
  first_non_empty ls = l.
Proof.
  revert i. induction ls as [|c ls IH]; intros i Hi Hne Hbefore; [done|].
  destruct i as [|i]; cbn in Hi.
  - simplify_eq. by destruct l.
  - rewrite (Hbefore 0%nat c); [|lia|done]. cbn.
    apply (IH i); [done..|].
    intros j c' Hj Hc'. apply (Hbefore (S j)); [lia|done].
Qed.

Lemma first_non_empty_none {A} (ls : list (list A)) :
  Forall (λ l, l = []) ls → first_non_empty ls = [].
Proof. induction 1 as [|l ls -> _ IH]; [done|]. by cbn. Qed.

Lemma filter_all {A} (P : A → Prop) `{∀ x, Decision (P x)} (l : list A) :
  Forall P l → filter P l = l.
Proof.
  induction 1 as [|x l Hx _ IH]; [done|]. by rewrite filter_cons_True, IH.
Qed.

Lemma filter_none {A} (P : A → Prop) `{∀ x, Decision (P x)} (l : list A) :
  Forall (λ x, ¬ P x) l → filter P l = [].
Proof.
  induction 1 as [|x l Hx _ IH]; [done|]. by rewrite filter_cons_False, IH.
Qed.

Lemma elem_of_first_non_empty_category {A} (ls : list (list A)) (x : A) :
  x ∈ first_non_empty ls → ∃ l, l ∈ ls ∧ x ∈ l.
Proof.
  induction ls as [|l ls IH]; [by intros ?%elem_of_nil|].
  rewrite first_non_empty_cons. destruct (has_length l).
  - intros Hx. exists l. split; [by left|done].
  - intros (l' & Hl' & Hx)%IH. exists l'. split; [by right|done].
Qed.

Lemma isRelevantError_no_file inc d : file d = None → isRelevantError inc d = true.
Proof. unfold isRelevantError. by intros ->. Qed.

(** The cascade of the classifier, category by category, is the choice of
    the first filtered category that is not empty. *)
Lemma getCompilerErrors_cascade app p inc :
  getCompilerErrors app p inc =
    (if ignoreCompilerErrors app then []
     else first_non_empty (relevant_categories p inc)).
Proof.
  unfold getCompilerErrors, relevant_categories, categories.
  destruct (ignoreCompilerErrors app); [done|].
  cbn [fmap list_fmap]. rewrite !first_non_empty_cons.
  repeat (case_match; [done|]). done.
Qed.

Lemma isRelevantError_concerns inc d :
  isRelevantError inc d = true ↔ concerns inc d.
Proof.
  unfold isRelevantError, concerns, includes. destruct (file d) as [f|].
  - rewrite bool_decide_eq_true. split; [by intros ? ? [= <-]|by intros Hall; apply Hall].
  - split; [by intros _ ? [=]|done].
Qed.

Lemma filter_isRelevantError inc (l : list Diagnostic) :
  List.filter (isRelevantError inc) l = filter (concerns inc) l.
Proof.
  induction l as [|d l IH]; [done|]. cbn [List.filter]. rewrite filter_cons.
  destruct (isRelevantError inc d) eqn:Hd.
  - rewrite decide_True by by apply isRelevantError_concerns. by rewrite IH.
  - rewrite decide_False; [done|].
    intros Hc%isRelevantError_concerns. congruence.
Qed.

(** C2. The classifier keeps, of each of the four categories
    (configuration options, syntactic, global, semantic, in this order), the
    diagnostics that have no file or whose file is an included file, and
    returns the first category that is not empty after that, and nothing of
    a later one; it returns the empty list when all four are empty after
    filtering, and the empty list whatever the categories hold when
    [ignoreCompilerErrors] is set. So every diagnostic returned has no file
    or an included file, and a diagnostic of an included file in the
    category returned is among the diagnostics returned. *)
Theorem getCompilerErrors_first_non_empty
    (app : Application) (p : Program) (inc : list SourceFile) :
  getCompilerErrors app p inc =
    (if ignoreCompilerErrors app then []
     else first_non_empty (filter (concerns inc) <$> categories p))
  ∧ categories p = [ getOptionsDiagnostics p; getSyntacticDiagnostics p;
                     getGlobalDiagnostics p; getSemanticDiagnostics p ]
  ∧ (ignoreCompilerErrors app = true → getCompilerErrors app p inc = [])
  ∧ (ignoreCompilerErrors app = false →
     ∀ (i : nat) cat, categories p !! i = Some cat →
       (∃ d, d ∈ cat ∧ concerns inc d) →
       (∀ (j : nat) c d, (j < i)%nat → categories p !! j = Some c → d ∈ c →
                         ¬ concerns inc d) →
       getCompilerErrors app p inc = filter (concerns inc) cat
       ∧ ∀ d, d ∈ getCompilerErrors app p inc ↔
              d ∈ cat ∧ (file d = None ∨ ∃ f, file d = Some f ∧ f ∈ inc))
  ∧ (ignoreCompilerErrors app = false →
     (∀ c d, c ∈ categories p → d ∈ c → ¬ concerns inc d) →
     getCompilerErrors app p inc = [])
  ∧ (∀ d, d ∈ getCompilerErrors app p inc →
          file d = None ∨ ∃ f, file d = Some f ∧ f ∈ inc).
Proof.
  assert (Hconcerns : ∀ d, concerns inc d ↔
            file d = None ∨ ∃ f, file d = Some f ∧ f ∈ inc).
  { intros d. unfold concerns. destruct (file d) as [f|].
    - split; [intros Hall; right; exists f; split; [done|by apply Hall]|].
      intros [?|(f' & [= <-] & ?)]; [done|]. by intros ? [= <-].
    - split; [by left|]. by intros _ ? [=]. }
  assert (Heq : getCompilerErrors app p inc =
    (if ignoreCompilerErrors app then []
     else first_non_empty (filter (concerns inc) <$> categories p))).
  { rewrite getCompilerErrors_cascade. destruct (ignoreCompilerErrors app); [done|].
    f_equal. unfold relevant_categories.
    apply list_fmap_ext. intros _ l _. apply filter_isRelevantError. }
  assert (Hempty : ∀ c : list Diagnostic,
            (∀ d, d ∈ c → ¬ concerns inc d) → filter (concerns inc) c = []).
  { intros c Hc. apply filter_none. by apply Forall_forall. }
  split; [exact Heq|]. split; [done|]. rewrite Heq.
  split; [by intros ->|].
  split; [|split].
  - intros -> i cat Hi (d0 & Hd0 & Hc0) Hbefore.
    assert (Hfirst : first_non_empty (filter (concerns inc) <$> categories p)
                     = filter (concerns inc) cat).
    { apply (first_non_empty_at _ i).
      - by rewrite list_lookup_fmap, Hi.
      - intros Hnil.
        assert (d0 ∈ filter (concerns inc) cat) as Hin by by apply list_elem_of_filter.
        rewrite Hnil in Hin. by apply elem_of_nil in Hin.
      - intros j c Hj Hc. rewrite list_lookup_fmap in Hc.
        destruct (categories p !! j) as [c'|] eqn:Hc'; [|done].
        cbn in Hc. injection Hc as <-. apply Hempty.
        intros d Hd. by apply (Hbefore j c'). }
    split; [exact Hfirst|]. intros d.
    by rewrite Hfirst, list_elem_of_filter, Hconcerns, (and_comm (d ∈ cat)).
  - intros -> Hall. apply first_non_empty_none.
    apply Forall_fmap, Forall_forall. intros c Hc. cbn. apply Hempty.
    intros d Hd. by apply (Hall c).
  - intros d Hd. destruct (ignoreCompilerErrors app); [by apply elem_of_nil in Hd|].
    apply elem_of_first_non_empty_category in Hd as (l & Hl & Hd).
    apply list_elem_of_fmap in Hl as (c & -> & _).
    apply list_elem_of_filter in Hd as [Hd _]. by apply Hconcerns.
Qed.

(** C10 (as the code has it). A diagnostic without a file passes the
    included-files filter of every category, whatever the included files
    are; so, unless [ignoreCompilerErrors] is set, a file-less diagnostic of
    a category whose predecessors are all empty after filtering is among the
    diagnostics returned. *)
Theorem fileless_diagnostic_is_relevant
    (app : Application) (p : Program) (inc : list SourceFile) (d : Diagnostic) :
  file d = None →
  isRelevantError inc d = true
  ∧ (∀ l, d ∈ l → d ∈ List.filter (isRelevantError inc) l)
  ∧ (ignoreCompilerErrors app = false →
     ∀ i cat, categories p !! i = Some cat → d ∈ cat →
       (∀ j c, (j < i)%nat → relevant_categories p inc !! j = Some c → c = []) →
       d ∈ getCompilerErrors app p inc).
Proof.
  intros Hfile.
  assert (Hrel : isRelevantError inc d = true) by by apply isRelevantError_no_file.
  assert (Hkeep : ∀ l, d ∈ l → d ∈ List.filter (isRelevantError inc) l).
  { intros l Hin. apply list_elem_of_In, filter_In.
    split; [by apply list_elem_of_In|done]. }
  split; [done|]. split; [done|].
  intros Hstrict i cat Hi Hin Hbefore.
  rewrite getCompilerErrors_cascade, Hstrict.
  rewrite (first_non_empty_at _ i (List.filter (isRelevantError inc) cat));
    [by apply Hkeep| | |done].
  - unfold relevant_categories. by rewrite list_lookup_fmap, Hi.
  - intros Hnil. specialize (Hkeep cat Hin). rewrite Hnil in Hkeep.
    by apply elem_of_nil in Hkeep.
Qed.

Lemma fileless_diagnostic_is_relevant_witness :
  file Examples.bad_option = None
  ∧ isRelevantError [Examples.a_ts] Examples.bad_option = true
  ∧ Examples.bad_option
      ∈ getCompilerErrors Examples.strict Examples.global_only [Examples.a_ts].
Proof.
  split; [reflexivity|].
  destruct (fileless_diagnostic_is_relevant Examples.strict Examples.global_only
              [Examples.a_ts] Examples.bad_option eq_refl) as (Hrel & _ & Hret).
  split; [exact Hrel|].
  apply (Hret eq_refl 2%nat [Examples.bad_option]).
  - reflexivity.
  - apply list_elem_of_In. simpl. left. reflexivity.
  - intros j c Hj Hc.
    destruct j as [|[|j]]; [vm_compute in Hc; congruence..|lia].
Defined.

(** C10 does not hold as written: with [ignoreCompilerErrors] set, a
    file-less diagnostic of the first category that is not empty is not
    returned. *)
Lemma suppressed_fileless_diagnostic_is_dropped :
  file Examples.bad_option = None
  ∧ isRelevantError [Examples.a_ts; Examples.b_ts] Examples.bad_option = true
  ∧ first_non_empty (categories Examples.broken_options) = [Examples.bad_option]
  ∧ getCompilerErrors Examples.lenient Examples.broken_options
      [Examples.a_ts; Examples.b_ts] = []
  ∧ Examples.bad_option
      ∉ getCompilerErrors Examples.lenient Examples.broken_options
          [Examples.a_ts; Examples.b_ts].
Proof.
  split_and!; try reflexivity.
  change (getCompilerErrors _ _ _) with (@nil Diagnostic). apply not_elem_of_nil.
Qed.

(** ** The option source *)

Lemma IGNORED_has (x : string) :
  TSOptions.has TSOptions.IGNORED x = bool_decide (x ∈ TSOptions.IGNORED_OPTIONS).
Proof.
  unfold TSOptions.has, TSOptions.IGNORED.
  apply bool_decide_ext. apply elem_of_list_to_set.
Qed.

(** C9 (as the code has it). The declarations contributed to the option
    container are those of the engine's option declarations whose name is
    none of out, version, help, emitDeclarationOnly, watch, declaration,
    declarationDir, declarationMap, mapRoot, sourceMap, inlineSources,
    removeComments, incremental, tsBuildInfoFile and configFilePath, one
    each and in the engine's order; no contributed declaration carries one
    of these names, and every engine option with another name has its
    declaration contributed. *)
Theorem addTSOptions_skips_ignored
    (Options : Type) (addDeclarations : list TSOptions.DeclarationOption → Options → Options)
    (optionDeclarations : list TSOptions.CommandLineOption) (container : Options) :
  let denied :=
    [ "out"; "version"; "help"; "emitDeclarationOnly"; "watch"; "declaration";
      "declarationDir"; "declarationMap"; "mapRoot"; "sourceMap";
      "inlineSources"; "removeComments"; "incremental"; "tsBuildInfoFile";
      "configFilePath" ]%string in
  TSOptions.addTSOptions Options addDeclarations optionDeclarations container =
    addDeclarations
      (TSOptions.createTSDeclaration <$>
         List.filter (λ o, bool_decide (TSOptions.name o ∉ denied))
                     optionDeclarations)
      container
  ∧ TSOptions.d_name <$> TSOptions.tsDeclarations optionDeclarations =
      List.filter (λ n, bool_decide (n ∉ denied))
                  (TSOptions.name <$> optionDeclarations)
  ∧ (∀ n, n ∈ TSOptions.d_name <$> TSOptions.tsDeclarations optionDeclarations ↔
          n ∈ TSOptions.name <$> optionDeclarations ∧ n ∉ denied)
  ∧ (∀ o, o ∈ optionDeclarations →
          TSOptions.name o ∉ denied →
          TSOptions.createTSDeclaration o ∈ TSOptions.tsDeclarations optionDeclarations)
  ∧ (∀ n, n ∈ denied ↔ n ∈ TSOptions.spelled_out ∨ n = "watch"%string
                        ∨ n = "removeComments"%string).
Proof.
  intros denied.
  assert (Hlist : ∀ n, n ∈ denied ↔ n ∈ TSOptions.spelled_out ∨ n = "watch"%string
                                   ∨ n = "removeComments"%string).
  { intros n. subst denied. unfold TSOptions.spelled_out.
    rewrite !elem_of_cons, !elem_of_nil. tauto. }
  change denied with TSOptions.IGNORED_OPTIONS in *. clear denied.
  assert (Hfilter : ∀ l : list TSOptions.CommandLineOption,
    List.filter (λ decl, negb (TSOptions.has TSOptions.IGNORED (TSOptions.name decl))) l =
    List.filter (λ o, bool_decide (TSOptions.name o ∉ TSOptions.IGNORED_OPTIONS)) l).
  { intros l. apply List.filter_ext. intros o.
    rewrite IGNORED_has. by rewrite bool_decide_not. }
  assert (Hname : ∀ o, TSOptions.d_name (TSOptions.createTSDeclaration o) = TSOptions.name o).
  { intros o. unfold TSOptions.createTSDeclaration. by repeat case_match. }
  assert (Hnames : TSOptions.d_name <$> TSOptions.tsDeclarations optionDeclarations =
      List.filter (λ n, bool_decide (n ∉ TSOptions.IGNORED_OPTIONS))
                  (TSOptions.name <$> optionDeclarations)).
  { unfold TSOptions.tsDeclarations. rewrite Hfilter.
    induction optionDeclarations as [|o l IH]; [done|].
    cbn. case_bool_decide; cbn; rewrite ?Hname; by f_equal. }
  split; [|split; [exact Hnames|split; [|split; [|exact Hlist]]]].
  - unfold TSOptions.addTSOptions, TSOptions.tsDeclarations. by rewrite Hfilter.
  - intros n. rewrite Hnames, list_elem_of_In, filter_In, <- list_elem_of_In.
    by rewrite bool_decide_eq_true.
  - intros o Hin Hout. unfold TSOptions.tsDeclarations. rewrite Hfilter.
    apply list_elem_of_fmap_2. apply list_elem_of_In, filter_In.
    split; [by apply list_elem_of_In|by apply bool_decide_eq_true].
Qed.

(** C9 does not hold as written: removeComments (and likewise watch) is
    none of the names the specification spells out, and yet the engine's
    option of that name gets no declaration, while an option such as strict
    gets one. *)
Lemma removeComments_is_denied_too :
  TSOptions.name Examples.removeComments_option ∉ TSOptions.spelled_out
  ∧ "watch"%string ∉ TSOptions.spelled_out
  ∧ TSOptions.tsDeclarations [Examples.removeComments_option; Examples.strict_option]
    = [TSOptions.createTSDeclaration Examples.strict_option]
  ∧ TSOptions.createTSDeclaration Examples.removeComments_option
    ∉ TSOptions.tsDeclarations [Examples.removeComments_option; Examples.strict_option].
Proof.
  split_and!.
  - apply (bool_decide_eq_true_1 _). reflexivity.
  - apply (bool_decide_eq_true_1 _). reflexivity.
  - reflexivity.
  - intros Hin. vm_compute in Hin.
    apply list_elem_of_singleton in Hin. discriminate Hin.
Qed.

(** ** The type dispatch chains *)

Lemma elem_of_remove_first {A} (same : A → bool) (l : list A) (x : A) :
  x ∈ remove_first same l → x ∈ l.
Proof.
  induction l as [|y l IH]; cbn; [done|].
  case_match; [by right|].
  rewrite !elem_of_cons. intros [?|?]; auto.
Qed.

Section Chains.

Context {S C : Type}.
Implicit Types (c x : Affinity S C) (chain l : list (Affinity S C)).

Lemma elem_of_sort_insert x c l :
  c ∈ sort_insert by_priority x l ↔ c = x ∨ c ∈ l.
Proof.
  induction l as [|y l IH]; cbn.
  - rewrite list_elem_of_singleton. split; [by left|].
    by intros [?|?%elem_of_nil].
  - case_match; [apply elem_of_cons|].
    rewrite !elem_of_cons, IH. tauto.
Qed.

Lemma sort_insert_descending x l :
  descending l → descending (sort_insert by_priority x l).
Proof.
  unfold descending. induction 1 as [|y l Hl IH Hy]; cbn.
  - by repeat constructor.
  - destruct (Z.leb_spec (by_priority x y) 0) as [Hle|Hgt]; unfold by_priority in *.
    + constructor; [by constructor|].
      constructor; [lia|].
      eapply Forall_impl; [exact Hy|]. cbn. intros; lia.
    + constructor; [done|].
      apply Forall_forall. intros c [->|Hc]%elem_of_sort_insert; [lia|].
      by eapply Forall_forall in Hy.
Qed.

Lemma Array_sort_descending l : descending (Array_sort by_priority l).
Proof.
  induction l as [|x l IH]; [constructor|].
  change (Array_sort by_priority (x :: l))
    with (sort_insert by_priority x (Array_sort by_priority l)).
  by apply sort_insert_descending.
Qed.



Lemma remove_first_descending (same : Affinity S C → bool) l :
  descending l → descending (remove_first same l).
Proof.
  unfold descending. induction 1 as [|y l Hl IH Hy]; cbn; [constructor|].
  case_match; [done|]. constructor; [done|].
  apply Forall_forall. intros c Hc. eapply Forall_forall in Hy; [exact Hy|].
  by eapply elem_of_remove_first.
Qed.

End Chains.

Lemma remove_first_absent {A} (same : A → bool) (l : list A) :
  (∀ x, x ∈ l → same x = false) → remove_first same l = l.
Proof.
  induction l as [|y l IH]; intros Hl; cbn; [done|].
  rewrite (Hl y) by set_solver. f_equal. apply IH. set_solver.
Qed.





Section Registrations.

Context {TsType DocType PluginState : Type}.

Local Abbreviation Component := (ConverterTypeComponent TsType DocType PluginState).
Local Abbreviation History := (list (Registration TsType DocType PluginState)).
Implicit Types (c : Component) (ops : History)
  (cv : Converter TsType DocType PluginState).

Lemma typeNodeConverters_add c cv :
  typeNodeConverters (addTypeConverter c cv) =
    match asTypeNodeConverter c with
    | Some e => Array_sort by_priority (typeNodeConverters cv ++ [e])
    | None => typeNodeConverters cv
    end.
Proof.
  unfold addTypeConverter.
  by destruct (asTypeNodeConverter c), (asTypeTypeConverter c).
Qed.

Lemma typeTypeConverters_add c cv :
  typeTypeConverters (addTypeConverter c cv) =
    match asTypeTypeConverter c with
    | Some e => Array_sort by_priority (typeTypeConverters cv ++ [e])
    | None => typeTypeConverters cv
    end.
Proof.
  unfold addTypeConverter.
  by destruct (asTypeNodeConverter c), (asTypeTypeConverter c).
Qed.

Lemma after_snoc ops (op : Registration TsType DocType PluginState) :
  after (ops ++ [op]) = perform (after ops) op.
Proof. unfold after. by rewrite foldl_app. Qed.

(** Both chains are in descending priority order after any history. *)
Lemma after_descending ops :
  descending (typeNodeConverters (after ops))
  ∧ descending (typeTypeConverters (after ops)).
Proof.
  induction ops as [|op ops [IHn IHt]] using rev_ind.
  - split; constructor.
  - rewrite after_snoc. destruct op as [c|c]; cbn [perform].
    + rewrite typeNodeConverters_add, typeTypeConverters_add.
      split; case_match; auto using Array_sort_descending.
    + split; cbn; by apply remove_first_descending.
Qed.




Section OneChain.

(** One chain, seen through its cast [as_entry]. *)
Context {S C : Type} (as_entry : Component → option (Affinity S C)).
Hypothesis as_entry_id : ∀ c e, as_entry c = Some e → a_id e = tc_id c.



End OneChain.

Lemma asTypeNodeConverter_id c (e : TypeNodeConverter TsType DocType PluginState) :
  asTypeNodeConverter c = Some e → a_id e = tc_id c.
Proof. unfold asTypeNodeConverter. repeat case_match; naive_solver. Qed.

Lemma asTypeTypeConverter_id c (e : TypeTypeConverter TsType DocType PluginState) :
  asTypeTypeConverter c = Some e → a_id e = tc_id c.
Proof. unfold asTypeTypeConverter. repeat case_match; naive_solver. Qed.


End Registrations.

(** ** Type conversion *)

Section TypeConversion.

Context {TsType DocType PluginState : Type}.
Implicit Types (w : World PluginState) (cv : Converter TsType DocType PluginState).

Lemma logs_nil w : logs [] w = w.
Proof. destruct w. unfold logs. cbn. by rewrite app_nil_r. Qed.

Lemma log_logs e w : log e w = logs [e] w.
Proof. done. Qed.

Lemma logs_logs es1 es2 w : logs es2 (logs es1 w) = logs (es1 ++ es2) w.
Proof. unfold logs. cbn. by rewrite app_assoc. Qed.

Lemma store_logs es w : store (logs es w) = store w.
Proof. done. Qed.

(** What [first_supporting] picks. *)
Lemma first_supporting_hit {S C} (holds : S → bool) (chain consulted : list (Affinity S C)) c :
  first_supporting holds chain = (consulted, Some c) →
  ∃ before later,
    chain = before ++ c :: later ∧ consulted = before ++ [c]
    ∧ Forall (λ c', holds (a_supports c') = false) before
    ∧ holds (a_supports c) = true.
Proof.
  unfold first_supporting. destruct (list_find _ _) as [[i c']|] eqn:Hfind; [|done].
  intros [= <- ->]. apply list_find_Some in Hfind as (Hi & Hc & Hbefore).
  exists (take i chain), (drop (Datatypes.S i) chain).
  split_and!; [| |apply Forall_forall|done].
  - by rewrite <- (take_drop_middle chain i c) at 1.
  - by erewrite take_S_r.
  - intros c' (j & Hj)%list_elem_of_lookup.
    apply lookup_take_Some in Hj as [Hj Hlt].
    specialize (Hbefore j c' Hj Hlt). by destruct (holds (a_supports c')).
Qed.

Lemma first_supporting_miss {S C} (holds : S → bool) (chain consulted : list (Affinity S C)) :
  first_supporting holds chain = (consulted, None) →
  consulted = chain ∧ Forall (λ c', holds (a_supports c') = false) chain.
Proof.
  unfold first_supporting. destruct (list_find _ _) as [[i c']|] eqn:Hfind; [done|].
  intros [= <-]. split; [done|].
  apply list_find_None in Hfind. eapply Forall_impl; [exact Hfind|].
  cbn. intros c'. by destruct (holds (a_supports c')).
Qed.

(** One loop over a chain consults [first_supporting]'s converters, in
    chain order, and lets the hit convert. *)
Lemma scan_first_supporting {S C} (asked done : N → Entry) (holds : S → bool)
    (run : C → option DocType) (chain : list (Affinity S C)) w :
  scan asked done holds run chain w =
    let '(consulted, hit) := first_supporting holds chain in
    (run ∘ a_convert <$> hit,
     logs ((asked ∘ a_id <$> consulted) ++ (done ∘ a_id <$> option_list hit)) w).
Proof.
  revert w. induction chain as [|c chain IH]; intros w.
  - cbn. by rewrite logs_nil.
  - cbn [scan]. unfold first_supporting in *. cbn [list_find].
    destruct (holds (a_supports c)) eqn:Hc.
    + rewrite decide_True by done. cbn. by rewrite !log_logs, logs_logs.
    + rewrite decide_False by congruence.
      rewrite IH. destruct (list_find _ chain) as [[i c']|]; cbn.
      * by rewrite log_logs, logs_logs.
      * by rewrite log_logs, logs_logs.
Qed.

(** In a chain in descending order, the converter that converts has the
    highest priority among those whose predicate holds. *)
Lemma first_supporting_highest {S C} (holds : S → bool)
    (chain consulted : list (Affinity S C)) c c' :
  descending chain →
  first_supporting holds chain = (consulted, Some c) →
  c' ∈ chain → holds (a_supports c') = true →
  a_priority c' ≤ a_priority c.
Proof.
  intros Hdesc (before & later & -> & _ & Hbefore & _)%first_supporting_hit Hc' Hholds.
  apply elem_of_app in Hc' as [Hc'|Hc'].
  - eapply Forall_forall in Hbefore; [|exact Hc']. cbn in Hbefore. congruence.
  - apply elem_of_cons in Hc' as [->|Hc']; [lia|].
    apply StronglySorted_app_1_r, StronglySorted_inv in Hdesc as [_ Hlater].
    eapply Forall_forall in Hlater; [|exact Hc']. exact Hlater.
Qed.

(** C4. [convertType] follows its contract: the type of a supplied node is
    asked for only when no type was given; the node-based chain is scanned
    in its order, which is descending priority, the first converter whose
    [supportsNode] holds converts, its result is returned and nothing after
    it is consulted; without a node, or when no node-based converter
    supports it, the type-based chain is scanned in the same way if there is
    a type; and when nothing matches the result is no type, as an ordinary
    return. In either chain the converter that converts has the highest
    priority among the converters whose predicate holds. *)
Theorem convertType_follows_contract
    (env : Env TsType PluginState)
    (ops : list (Registration TsType DocType PluginState))
    (node : option Node) (type : option TsType) w :
  convertType env (after ops) node type w =
    convertType_contract env (after ops) node type w
  ∧ descending (typeNodeConverters (after ops))
  ∧ descending (typeTypeConverters (after ops))
  ∧ (∀ holds consulted c c',
       first_supporting holds (typeNodeConverters (after ops)) = (consulted, Some c) →
       c' ∈ typeNodeConverters (after ops) → holds (a_supports c') = true →
       a_priority c' ≤ a_priority c)
  ∧ (∀ holds consulted c c',
       first_supporting holds (typeTypeConverters (after ops)) = (consulted, Some c) →
       c' ∈ typeTypeConverters (after ops) → holds (a_supports c') = true →
       a_priority c' ≤ a_priority c).
Proof.
  destruct (after_descending ops) as [Hdn Hdt].
  split; [|split_and!; [done|done|..];
           intros holds consulted c c'; by apply first_supporting_highest].
  clear Hdn Hdt. generalize (after ops). intros cv.
  assert (Htypes : ∀ (t' : option TsType) es,
    scanTypes cv t' (logs es w) =
    match t' with
    | Some t =>
        let '(consulted', hit') :=
          first_supporting (λ s, s (store w) t) (typeTypeConverters cv) in
        (hit' ≫= (λ c, a_convert c (store w) t),
         logs (es ++ (SupportsTypeAsked ∘ a_id <$> consulted')
                  ++ (ConvertTypeBy ∘ a_id <$> option_list hit')) w)
    | None => (None, logs es w)
    end).
  { intros [t|] es; [|done]. unfold scanTypes.
    rewrite scan_first_supporting, store_logs.
    destruct (first_supporting _ _) as [consulted' [c|]]; cbn;
      by rewrite logs_logs. }
  unfold convertType, convertType_contract.
  destruct node as [n|]; [|by rewrite <- (logs_nil w) at 1; rewrite Htypes].
  set (type' := match type with Some t => Some t | None => getTypeAtLocation env n end).
  set (resolved := match type with Some _ => [] | None => [TypeAtLocationAsked n] end).
  assert (Hstart :
    (match type with
     | Some t => (Some t, w)
     | None => (getTypeAtLocation env n, log (TypeAtLocationAsked n) w)
     end) = (type', logs resolved w)).
  { subst type' resolved. destruct type; [by rewrite logs_nil|done]. }
  rewrite Hstart, scan_first_supporting, store_logs.
  replace (match type with Some _ => type | None => getTypeAtLocation env n end)
    with type' by (subst type'; by destruct type).
  replace (match type with Some _ => [] | None => [TypeAtLocationAsked n] end)
    with resolved by done.
  destruct (first_supporting _ (typeNodeConverters cv)) as [consulted [c|]]; cbn.
  - by rewrite logs_logs, <- app_assoc.
  - rewrite logs_logs, app_nil_r, Htypes. by destruct type'.
Qed.

End TypeConversion.

(** ** Cycle-safe node conversion *)

Section NodeConversion.

Context {TsType DocType PluginState : Type}.
Implicit Types (w : World PluginState) (cv : Converter TsType DocType PluginState)
  (body : Conv PluginState) (rec : Node → World PluginState → Outcome PluginState).

Lemma untouched_refl w : untouched w w.
Proof.
  repeat split; try done. exists []. by rewrite app_nil_r.
Qed.

Lemma untouched_trans w1 w2 w3 : untouched w1 w2 → untouched w2 w3 → untouched w1 w3.
Proof.
  intros (Hs1 & Hh1 & Hp1 & es1 & Ht1 & He1) (Hs2 & Hh2 & Hp2 & es2 & Ht2 & He2).
  split_and!; [congruence| |congruence|].
  - intros l Hl. rewrite Hh2, Hh1; [done..|].
    apply elem_of_dom. rewrite Hh1 by done. by apply elem_of_dom.
  - exists (es1 ++ es2). split; [|by apply Forall_app].
    by rewrite Ht2, Ht1, app_assoc.
Qed.

Lemma untouched_log e w : node_entry e → untouched w (log e w).
Proof.
  intros He. repeat split; try done. exists [e]. split; [done|]. by constructor.
Qed.

Lemma untouched_set_store (s : Store PluginState) w : untouched w (set_store s w).
Proof. repeat split; try done. exists []. cbn. by rewrite app_nil_r. Qed.

Lemma untouched_dom w w' l : untouched w w' → l ∈ dom (heap w) → l ∈ dom (heap w').
Proof.
  intros (_ & Hh & _) Hl. apply elem_of_dom. rewrite Hh by done. by apply elem_of_dom.
Qed.

Lemma untouched_visited w w' :
  well_formed w → untouched w w' → visited w' = visited w ∧ well_formed w'.
Proof.
  unfold well_formed, visited. intros Hwf Hu.
  pose proof (untouched_dom _ _ _ Hu Hwf) as Hwf'.
  destruct Hu as (Hs & Hh & _). rewrite Hs. by rewrite Hh.
Qed.

(** The copy made on entry: a new array, holding the old contents and the
    node; the arrays that existed keep their contents. *)
Lemma enter_fresh node w :
  (visitStack (enter node w) ∉ dom (heap w))
  ∧ heap (enter node w) !! visitStack (enter node w) = Some (visited w ++ [node])
  ∧ (∀ l, l ∈ dom (heap w) → heap (enter node w) !! l = heap w !! l)
  ∧ program (enter node w) = program w
  ∧ store (enter node w) = store w
  ∧ trace (enter node w) = trace w.
Proof.
  unfold enter, push_visitStack, slice_visitStack, visited. cbn.
  pose proof (is_fresh (dom (heap w))) as Hfresh.
  split_and!; try done.
  - by rewrite !lookup_insert_eq.
  - intros l Hl.
    assert (fresh (dom (heap w)) ≠ l) by (by intros <-).
    by rewrite !lookup_insert_ne.
Qed.

Lemma visited_enter node w : visited (enter node w) = visited w ++ [node].
Proof.
  unfold visited at 1. by destruct (enter_fresh node w) as (_ & -> & _).
Qed.

Lemma exec_untouched rec body :
  (∀ n w r w', rec n w = Some (r, w') → untouched w w') →
  ∀ w r w', exec rec body w = Some (r, w') → untouched w w'.
Proof.
  intros Hrec. induction body as [result|k IH|s k IH|n k IH]; intros w r w'; cbn.
  - intros [= _ <-]. apply untouched_refl.
  - apply IH.
  - intros Hk. eapply untouched_trans; [apply (untouched_set_store s)|by eapply IH].
  - destruct (rec n w) as [[r1 w1]|] eqn:Hn; [|done]. intros Hk.
    eapply untouched_trans; [by eapply Hrec|by eapply IH].
Qed.

Lemma dispatch_untouched rec cv node w r w' :
  (∀ n w r w', rec n w = Some (r, w') → untouched w w') →
  dispatch rec cv node w = Some (r, w') → untouched w w'.
Proof.
  intros Hrec. unfold dispatch. destruct (nodeConverters cv !! kind node) as [c|].
  - intros Hexec. eapply untouched_trans; [|by eapply exec_untouched].
    by apply untouched_log.
  - intros [= _ <-]. apply untouched_refl.
Qed.

(** A call of [convertNode] leaves the context's stack reference and every
    array that existed as it found them. *)
Lemma convertNode_untouched fuel cv node w r w' :
  convertNode fuel cv node w = Some (r, w') → untouched w w'.
Proof.
  revert node w r w'. induction fuel as [|fuel IH]; intros node w r w'; [done|].
  cbn [convertNode].
  destruct (includes _ node).
  { intros [= _ <-]. by apply untouched_log. }
  set (w0 := log (ConvertNodeCalled node) w).
  destruct (dispatch _ cv node (enter node w0)) as [[r2 w2]|] eqn:Hd; [|done].
  intros [= _ <-].
  apply dispatch_untouched in Hd as (Hs & Hh & Hp & es & Ht & He); [|exact IH].
  destruct (enter_fresh node w0) as (Hfresh & _ & Hold & Hprog & _ & Htr).
  split_and!; cbn; [done| |by rewrite Hp, Hprog|].
  - intros l Hl. rewrite Hh; [by apply Hold|].
    apply elem_of_dom. rewrite Hold by done. by apply elem_of_dom.
  - exists (ConvertNodeCalled node :: es). split; [|by constructor].
    rewrite Ht, Htr. cbn. by rewrite <- app_assoc.
Qed.

Lemma remaining_enter U node w :
  node ∈ U → node ∉ visited w →
  (remaining U (enter node w) < remaining U w)%nat.
Proof.
  intros HU Hnew. unfold remaining. rewrite visited_enter.
  assert (Hsplit : filter (λ x, x ∉ visited w ++ [node]) U =
                   filter (λ x, x ≠ node) (filter (λ x, x ∉ visited w) U)).
  { rewrite list_filter_filter. apply list_filter_iff. intros x.
    rewrite not_elem_of_app, list_elem_of_singleton. tauto. }
  rewrite Hsplit. apply (length_filter_lt _ _ node); [|by intros ?].
  by apply list_elem_of_filter.
Qed.

(** A converter body returns when the calls it makes return and leave the
    stack as they found it. *)
Lemma exec_returns rec U body (l : N) (vs : list Node) :
  (∀ n w, n ∈ U → visitStack w = l → heap w !! l = Some vs →
     ∃ r w', rec n w = Some (r, w') ∧ visitStack w' = l ∧ heap w' !! l = Some vs) →
  calls_within U body →
  ∀ w, visitStack w = l → heap w !! l = Some vs → is_Some (exec rec body w).
Proof.
  intros Hrec.
  induction body as [result|k IH|s k IH|n k IH]; intros Hbody w Hl Hvs; cbn.
  - done.
  - by apply IH.
  - by apply IH.
  - destruct Hbody as [Hn Hk].
    destruct (Hrec n w Hn Hl Hvs) as (r & w' & -> & Hl' & Hvs').
    by apply IH.
Qed.

(** With a finite node structure every call returns, whatever cycles the
    structure has: the nesting is bounded by the nodes not yet on the stack. *)
Lemma convertNode_returns U cv :
  confined U cv →
  ∀ fuel node w, node ∈ U → (remaining U w < fuel)%nat →
    is_Some (convertNode fuel cv node w).
Proof.
  intros Hconf. induction fuel as [|fuel IH]; intros node w HU Hfuel; [lia|].
  cbn [convertNode].
  set (w0 := log (ConvertNodeCalled node) w).
  destruct (includes (visited w0) node) eqn:Hseen; [done|].
  apply bool_decide_eq_false in Hseen.
  pose proof (remaining_enter U node w0 HU Hseen) as Hless.
  assert (Hrem : (remaining U (enter node w0) < fuel)%nat).
  { change (remaining U w0) with (remaining U w) in Hless. lia. }
  assert (Hd : is_Some (dispatch (convertNode fuel cv) cv node (enter node w0))).
  { unfold dispatch.
    destruct (nodeConverters cv !! kind node) as [c|] eqn:Hc; [|done].
    destruct (enter_fresh node w0) as (_ & Hstack & _).
    eapply (exec_returns _ U _ (visitStack (enter node w0))).
    - intros n w1 Hn Hl Hvs.
      destruct (IH n w1 Hn) as [[r w'] Hcall].
      { unfold remaining, visited in *. rewrite Hl, Hvs. by rewrite Hstack in Hrem. }
      exists r, w'. split; [done|].
      apply convertNode_untouched in Hcall as (Hs & Hh & _).
      split; [congruence|]. rewrite <- Hvs, <- Hl. apply Hh.
      apply elem_of_dom. by rewrite Hl, Hvs.
    - by apply Hconf.
    - done.
    - exact Hstack. }
  destruct Hd as [[r w2] ->]. done.
Qed.

Lemma remaining_le U w : (remaining U w ≤ length U)%nat.
Proof. unfold remaining. apply length_filter. Qed.

(** C3. When the node is already on the context's visit stack,
    [convertNode] returns no reflection at once: nothing is dispatched and
    nothing but the record of the call changes. And on a finite node
    structure, self-referential or not, every call of [convertNode] returns:
    no run needs a deeper nesting of calls than there are nodes, plus one
    for the call that finds its node on the stack. *)
Theorem convertNode_cycle_guard cv :
  (∀ fuel node w,
     node ∈ visited w →
     convertNode (Datatypes.S fuel) cv node w =
       Some (None, log (ConvertNodeCalled node) w))
  ∧ (∀ U, confined U cv →
     ∀ fuel node w, node ∈ U → (length U < fuel)%nat →
       ∃ r w', convertNode fuel cv node w = Some (r, w')).
Proof.
  split.
  - intros fuel node w Hseen. cbn [convertNode].
    change (visited (log (ConvertNodeCalled node) w)) with (visited w).
    unfold includes. by rewrite bool_decide_eq_true_2.
  - intros U Hconf fuel node w HU Hfuel.
    destruct (convertNode_returns U cv Hconf fuel node w HU) as [[r w'] Hcall].
    + pose proof (remaining_le U w). lia.
    + by exists r, w'.
Qed.

(** C6. [convertNode] does not mutate the visit stack it finds. After it
    returns, the context refers to the array it referred to before, every
    array that existed has its contents, and so a later call sees the node
    as visited only if it was before. When the node is not on the stack, the
    dispatch runs with a newly allocated array that holds the old contents
    followed by the node, and the old reference is put back afterwards. *)
Theorem convertNode_restores_visitStack fuel cv node w r w' :
  well_formed w →
  convertNode fuel cv node w = Some (r, w') →
  visitStack w' = visitStack w
  ∧ (∀ l, l ∈ dom (heap w) → heap w' !! l = heap w !! l)
  ∧ visited w' = visited w
  ∧ includes (visited w') node = includes (visited w) node
  ∧ (node ∉ visited w →
     ∃ fuel' w2,
       let w1 := enter node (log (ConvertNodeCalled node) w) in
       fuel = Datatypes.S fuel'
       ∧ (visitStack w1 ∉ dom (heap w))
       ∧ visited w1 = visited w ++ [node]
       ∧ heap w1 !! visitStack w = heap w !! visitStack w
       ∧ dispatch (convertNode fuel' cv) cv node w1 = Some (r, w2)
       ∧ w' = set_visitStack (visitStack w) w2).
Proof.
  intros Hwf Hcall.
  pose proof (convertNode_untouched _ _ _ _ _ _ Hcall) as Hu.
  destruct (untouched_visited _ _ Hwf Hu) as [Hvis _].
  destruct Hu as (Hs & Hh & _).
  split_and!; [done|done|done|by rewrite Hvis|].
  intros Hnew. destruct fuel as [|fuel']; [done|]. cbn [convertNode] in Hcall.
  set (w0 := log (ConvertNodeCalled node) w) in *.
  assert (Hseen : includes (visited w0) node = false)
    by by apply bool_decide_eq_false.
  rewrite Hseen in Hcall.
  destruct (dispatch _ cv node (enter node w0)) as [[r2 w2]|] eqn:Hd; [|done].
  injection Hcall as <- <-.
  exists fuel', w2. cbn zeta.
  destruct (enter_fresh node w0) as (Hfresh & _ & Hold & _).
  split_and!;
    [done|exact Hfresh|exact (visited_enter node w0)|exact (Hold _ Hwf)|done|done].
Qed.

End NodeConversion.

(** ** The pipeline *)

Section Pipeline.

Context {TsType DocType PluginState : Type}.
Implicit Types (w : World PluginState) (cv : Converter TsType DocType PluginState)
  (env : Env TsType PluginState).

Lemma added_app w w' es : trace w' = trace w ++ es → added w w' = es.
Proof. unfold added. intros ->. by rewrite drop_app_length. Qed.

Lemma StronglySorted_le_lt (l : list N) :
  StronglySorted N.le l → NoDup l → StronglySorted N.lt l.
Proof.
  induction 1 as [|x l Hl IH Hx]; intros Hnd; [constructor|].
  apply NoDup_cons in Hnd as [Hx' Hnd].
  constructor; [by apply IH|].
  apply Forall_forall. intros y Hy.
  assert (x ≠ y) by (by intros ->).
  eapply Forall_forall in Hx; [|exact Hy]. lia.
Qed.


(** An object has a key exactly when a lookup of the key gives a value. *)
Lemma elem_of_dom_object {V} (o : JSObject V) (k : N) :
  k ∈ dom o ↔ is_Some (o !! k).
Proof.
  destruct o as [l]. unfold dom, JSObject_dom, lookup, JSObject_lookup. cbn.
  rewrite elem_of_list_to_set.
  induction l as [|[k' v] l IH]; cbn.
  - split; [by intros ?%elem_of_nil|by intros [? ?]].
  - rewrite elem_of_cons, IH. case_decide; naive_solver.
Qed.

Lemma elem_of_first_occurrences (l : list N) (k : N) :
  k ∈ first_occurrences l ↔ k ∈ l.
Proof.
  induction l as [|k' l IH]; [done|]. cbn [first_occurrences].
  rewrite !elem_of_cons, list_elem_of_filter, IH.
  destruct (decide (k = k')); tauto.
Qed.

Lemma NoDup_first_occurrences (l : list N) : NoDup (first_occurrences l).
Proof.
  induction l as [|k l IH]; cbn [first_occurrences]; [constructor|].
  constructor.
  - rewrite list_elem_of_filter. tauto.
  - by apply NoDup_filter.
Qed.

Lemma first_occurrences_NoDup (l : list N) : NoDup l → first_occurrences l = l.
Proof.
  induction 1 as [|k l Hk _ IH]; [done|]. cbn [first_occurrences].
  rewrite IH. f_equal. apply filter_all, Forall_forall.
  intros k' Hk' ->. done.
Qed.

(** An object that holds each key once lists its keys as they are. *)
Lemma own_keys_NoDup {V} (o : JSObject V) :
  NoDup (properties o).*1 → own_keys o = (properties o).*1.
Proof. apply first_occurrences_NoDup. Qed.

(** The objects made from the empty one by assignments and deletions hold
    each key once. *)
Lemma properties_set_keys {V} (k : N) (v : V) (l : list (N * V)) :
  (properties_set k v l).*1 = if decide (k ∈ l.*1) then l.*1 else l.*1 ++ [k].
Proof.
  induction l as [|[k' v'] l IH]; [done|]. cbn [properties_set fmap list_fmap fst].
  destruct (decide (k' = k)) as [->|Hne].
  - cbn. rewrite decide_True by left. done.
  - cbn [fmap list_fmap fst]. rewrite IH.
    destruct (decide (k ∈ l.*1)) as [Hin|Hout].
    + rewrite decide_True by by right. done.
    + rewrite decide_False; [done|].
      rewrite elem_of_cons. intros [->|?]; done.
Qed.

Lemma NoDup_empty_object {V} : NoDup (properties (∅ : JSObject V)).*1.
Proof. constructor. Qed.

Lemma NoDup_insert_object {V} (k : N) (v : V) (o : JSObject V) :
  NoDup (properties o).*1 → NoDup (properties (<[k := v]> o)).*1.
Proof.
  intros Hnd. unfold insert, JSObject_insert. cbn [properties].
  rewrite properties_set_keys. case_decide as Hk; [done|].
  apply NoDup_app. split_and!; [done| |apply NoDup_singleton].
  intros k' Hk' ->%list_elem_of_singleton. done.
Qed.

Lemma NoDup_delete_object {V} (k : N) (o : JSObject V) :
  NoDup (properties o).*1 → NoDup (properties (delete k o)).*1.
Proof.
  unfold delete, JSObject_delete. cbn [properties].
  induction (properties o) as [|[k' v] l IH]; [done|].
  cbn [fmap list_fmap fst]. intros [Hk' Hnd]%NoDup_cons.
  rewrite filter_cons. case_decide; [|by apply IH].
  cbn [fmap list_fmap fst]. apply NoDup_cons. split; [|by apply IH].
  intros Hin. apply Hk'.
  apply list_elem_of_fmap in Hin as ([k2 v2] & -> & Hin).
  apply list_elem_of_filter in Hin as [_ Hin].
  apply list_elem_of_fmap. by exists (k2, v2).
Qed.

Lemma elem_of_own_keys {V} (o : JSObject V) (k : N) : k ∈ own_keys o ↔ k ∈ dom o.
Proof.
  unfold own_keys, dom, JSObject_dom.
  by rewrite elem_of_first_occurrences, elem_of_list_to_set.
Qed.

(** The keys of the enumeration: those of the object, each once; the array
    indices first, ascending, then the other keys in creation order. *)
Lemma for_in_keys_enumerates {V} (o : JSObject V) :
  NoDup (for_in_keys o)
  ∧ (∀ id, id ∈ for_in_keys o ↔ id ∈ dom o)
  ∧ StronglySorted N.lt (filter (λ k, is_array_index k = true) (for_in_keys o))
  ∧ filter (λ k, is_array_index k = false) (for_in_keys o)
    = filter (λ k, is_array_index k = false) (own_keys o)
  ∧ for_in_keys o
    = filter (λ k, is_array_index k = true) (for_in_keys o)
      ++ filter (λ k, is_array_index k = false) (for_in_keys o).
Proof.
  unfold for_in_keys.
  set (indices := filter (λ k, is_array_index k = true) (own_keys o)).
  set (others := filter (λ k, is_array_index k = false) (own_keys o)).
  assert (Hnd : NoDup (own_keys o)) by apply NoDup_first_occurrences.
  assert (Hsorted_in : Forall (λ k, is_array_index k = true) (merge_sort N.le indices)).
  { rewrite merge_sort_Permutation. apply Forall_forall.
    by intros k [? _]%list_elem_of_filter. }
  assert (Hothers : Forall (λ k, ¬ is_array_index k = true) others).
  { apply Forall_forall. intros k [Hk _]%list_elem_of_filter. congruence. }
  assert (Hothers' : Forall (λ k, is_array_index k = false) others).
  { apply Forall_forall. by intros k [Hk _]%list_elem_of_filter. }
  assert (Hsorted_out : Forall (λ k, ¬ is_array_index k = false) (merge_sort N.le indices)).
  { eapply Forall_impl; [exact Hsorted_in|]. cbn. congruence. }
  assert (Hin : filter (λ k, is_array_index k = true) (merge_sort N.le indices ++ others)
                = merge_sort N.le indices).
  { by rewrite filter_app, (filter_all _ _ Hsorted_in), (filter_none _ _ Hothers), app_nil_r. }
  assert (Hout : filter (λ k, is_array_index k = false) (merge_sort N.le indices ++ others)
                 = others).
  { by rewrite filter_app, (filter_none _ _ Hsorted_out), (filter_all _ _ Hothers'). }
  split_and!.
  - apply NoDup_app. split_and!.
    + rewrite merge_sort_Permutation. by apply NoDup_filter.
    + intros k Hk Hk'.
      eapply Forall_forall in Hsorted_in; [|exact Hk].
      eapply Forall_forall in Hothers; [|exact Hk']. done.
    + by apply NoDup_filter.
  - intros id. rewrite elem_of_app, merge_sort_Permutation.
    subst indices others. rewrite !list_elem_of_filter, <- elem_of_own_keys.
    destruct (is_array_index id); naive_solver.
  - rewrite Hin. apply StronglySorted_le_lt.
    + apply (StronglySorted_merge_sort _).
    + rewrite merge_sort_Permutation. by apply NoDup_filter.
  - by rewrite Hout.
  - by rewrite Hin, Hout.
Qed.

Lemma resolved_ids_app tr1 tr2 :
  resolved_ids (tr1 ++ tr2) = resolved_ids tr1 ++ resolved_ids tr2.
Proof. unfold resolved_ids. apply omap_app. Qed.

Lemma warnings_app tr1 tr2 : warnings (tr1 ++ tr2) = warnings tr1 ++ warnings tr2.
Proof. unfold warnings. apply omap_app. Qed.

Lemma converted_nodes_app tr1 tr2 :
  converted_nodes (tr1 ++ tr2) = converted_nodes tr1 ++ converted_nodes tr2.
Proof. unfold converted_nodes. apply omap_app. Qed.

Lemma warnings_node_entries es : Forall node_entry es → warnings es = [].
Proof. induction 1 as [|[] es He _ IH]; try done. Qed.

Lemma trace_trigger env event payload w :
  trace (trigger env event payload w) = trace w ++ [Triggered event payload].
Proof. done. Qed.

(** The loop of the resolve pass triggers the resolve event, and nothing
    else, for some of its keys in their order; a key that is in the mapping
    and that no listener removes gets its event. *)
Lemma resolveEach_fires env keys w :
  ∃ fired,
    trace (resolveEach env keys w) =
      trace w ++ ((λ kr, Triggered EVENT_RESOLVE (Some kr)) <$> fired)
    ∧ sublist (fst <$> fired) keys
    ∧ (∀ id, id ∈ keys → never_removed env id →
             id ∈ dom (reflections (project (store w))) → id ∈ fst <$> fired)
    ∧ heap (resolveEach env keys w) = heap w
    ∧ visitStack (resolveEach env keys w) = visitStack w.
Proof.
  revert w. induction keys as [|k keys IH]; intros w.
  - exists []. cbn. rewrite app_nil_r. by split_and!.
  - cbn [resolveEach].
    destruct (reflections (project (store w)) !! k) as [r|] eqn:Hk.
    + destruct (IH (trigger env EVENT_RESOLVE (Some (k, r)) w))
        as (fired & Htr & Hsub & Hall & Hheap & Hstack).
      exists ((k, r) :: fired). split_and!.
      * rewrite Htr. cbn. by rewrite <- app_assoc.
      * cbn. by apply sublist_skip.
      * intros id Hid Hstay Hin. cbn.
        apply elem_of_cons in Hid as [->|Hid]; [by left|].
        right. apply Hall; [done..|]. cbn. by apply Hstay.
      * by rewrite Hheap.
      * by rewrite Hstack.
    + destruct (IH w) as (fired & Htr & Hsub & Hall & Hheap & Hstack).
      exists fired. split_and!; [done|by apply sublist_cons| |done|done].
      intros id Hid Hstay Hin.
      apply elem_of_cons in Hid as [->|Hid]; [|by apply Hall].
      apply elem_of_dom_object in Hin as [? Hin]. congruence.
Qed.


Lemma warnings_fired (fired : list (N * Reflection)) :
  warnings ((λ kr, Triggered EVENT_RESOLVE (Some kr)) <$> fired) = [].
Proof. by induction fired. Qed.

Lemma converted_nodes_fired (fired : list (N * Reflection)) :
  converted_nodes ((λ kr, Triggered EVENT_RESOLVE (Some kr)) <$> fired) = [].
Proof. by induction fired. Qed.

(** What the resolve pass adds to the observations. *)
Lemma resolve_trace env w :
  ∃ fired,
    trace (resolve env w).2 =
      trace w ++ [Triggered EVENT_RESOLVE_BEGIN None]
              ++ ((λ kr, Triggered EVENT_RESOLVE (Some kr)) <$> fired)
              ++ [Triggered EVENT_RESOLVE_END None]
    ∧ sublist (fst <$> fired)
        (for_in_keys (reflections (project (store (trigger env EVENT_RESOLVE_BEGIN None w)))))
    ∧ (∀ id,
         id ∈ for_in_keys (reflections (project (store (trigger env EVENT_RESOLVE_BEGIN None w)))) →
         never_removed env id → id ∈ fst <$> fired)
    ∧ (resolve env w).1 = project (store (resolve env w).2).
Proof.
  unfold resolve. cbn [fst snd].
  set (w1 := trigger env EVENT_RESOLVE_BEGIN None w).
  destruct (resolveEach_fires env (for_in_keys (reflections (project (store w1)))) w1)
    as (fired & Htr & Hsub & Hall & _).
  exists fired. split_and!; [|done| |done].
  - rewrite trace_trigger, Htr. subst w1. rewrite trace_trigger.
    by rewrite <- !app_assoc.
  - intros id Hid Hstay. apply Hall; [done..|].
    by apply for_in_keys_enumerates.
Qed.


Lemma resolve_events_app tr1 tr2 :
  resolve_events (tr1 ++ tr2) = resolve_events tr1 ++ resolve_events tr2.
Proof. unfold resolve_events. apply omap_app. Qed.


Lemma resolved_ids_events tr : resolved_ids tr = (resolve_events tr).*1.
Proof.
  induction tr as [|e tr IH]; [done|].
  destruct e as [[] [[k r]|]| | | | | | | |]; cbn;
    first [exact IH | f_equal; exact IH].
Qed.






Lemma convertFiles_untouched fuel cv files w w' :
  convertFiles fuel cv files w = Some w' → untouched w w'.
Proof.
  revert w. induction files as [|sf files IH]; intros w; cbn.
  - intros [= <-]. apply untouched_refl.
  - destruct (convertNode fuel cv (sf_node sf) w) as [[r w1]|] eqn:Hcall; [|done].
    intros Hrest. eapply untouched_trans; [|by apply IH].
    by eapply convertNode_untouched.
Qed.

Lemma convertFiles_returns U cv fuel files w :
  confined U cv →
  (∀ sf, sf ∈ files → sf_node sf ∈ U) →
  (length U < fuel)%nat →
  is_Some (convertFiles fuel cv files w).
Proof.
  intros Hconf HU Hfuel. revert w HU.
  induction files as [|sf files IH]; intros w HU; cbn; [done|].
  destruct (convertNode_returns U cv Hconf fuel (sf_node sf) w)
    as [[r w1] ->]; [apply HU; by left|pose proof (remaining_le U w); lia|].
  apply IH. intros sf' Hsf'. apply HU. by right.
Qed.

Lemma compile_found env fuel cv w errs w1 :
  compile env fuel cv w = Some (errs, w1) →
  errs = getCompilerErrors (app env) (program w) (includedSourceFiles env (program w))
  ∧ untouched w w1.
Proof.
  unfold compile.
  destruct (has_length _) eqn:Hlen.
  - intros [= <- <-]. split; [done|apply untouched_refl].
  - apply has_length_nil in Hlen. rewrite Hlen.
    destruct (convertFiles _ _ _ _) as [w2|] eqn:Hfiles; [|done].
    intros [= <- <-]. split; [done|]. by eapply convertFiles_untouched.
Qed.

Lemma compile_returns U env cv fuel w :
  confined U cv →
  (∀ sf, sf ∈ getSourceFiles (program w) → sf_node sf ∈ U) →
  (length U < fuel)%nat →
  is_Some (compile env fuel cv w).
Proof.
  intros Hconf HU Hfuel. unfold compile.
  destruct (has_length _); [done|].
  destruct (convertFiles_returns U cv fuel
              (includedSourceFiles env (program w)) w Hconf) as [w1 ->]; [|done..].
  intros sf Hsf. apply HU.
  unfold includedSourceFiles in Hsf.
  apply list_elem_of_In, filter_In in Hsf as [Hsf _]. by apply list_elem_of_In.
Qed.

(** C5. When the classifier finds diagnostics, the compile phase returns
    exactly them, as its value, and leaves the world as it was: [convertNode]
    is called on no source file. The run then returns these diagnostics as
    its errors, and no call of [convertNode] is among its observations. *)
Theorem compile_returns_diagnostics env fuel cv :
  (∀ w,
     let found := getCompilerErrors (app env) (program w)
                    (includedSourceFiles env (program w)) in
     found ≠ [] → compile env fuel cv w = Some (found, w))
  ∧ (∀ fileNames ps,
     let p := createProgram env (normalizePath env <$> fileNames) in
     let found := getCompilerErrors (app env) p (includedSourceFiles env p) in
     found ≠ [] →
     ∃ res w', convert env fuel cv fileNames ps = Some (res, w')
               ∧ errors res = found
               ∧ converted_nodes (trace w') = []).
Proof.
  assert (Hcompile : ∀ w,
     let found := getCompilerErrors (app env) (program w)
                    (includedSourceFiles env (program w)) in
     found ≠ [] → compile env fuel cv w = Some (found, w)).
  { intros w found Hfound. unfold compile. fold found.
    destruct (has_length found) eqn:Hlen; [done|].
    by apply has_length_nil in Hlen. }
  split; [exact Hcompile|].
  intros fileNames ps p found Hfound. unfold convert. fold p.
  set (w0 := trigger env EVENT_BEGIN None (newContext env p ps)).
  rewrite (Hcompile w0) by done.
  destruct (resolve env w0) as [proj w2] eqn:Hres.
  eexists _, _. split; [done|]. split; [done|].
  rewrite trace_trigger.
  destruct (resolve_trace env w0) as (fired & Htr & _).
  rewrite Hres in Htr. cbn [snd] in Htr.
  assert (Hw2 : converted_nodes (trace w2) = []).
  { rewrite Htr, !converted_nodes_app, converted_nodes_fired. done. }
  rewrite converted_nodes_app.
  destruct (has_length (getDanglingReferences env proj)); cbn [trace warn log];
    rewrite ?converted_nodes_app, Hw2; done.
Qed.

(** C8 (as the code has it). Every run goes through the resolve pass,
    also a run whose compile phase returned diagnostics. After the
    resolve-end event and before the end event, the names that resolve to
    nothing are reported in one warning, which is the only warning of the
    run: its text is the three fixed lines followed by the dangling names,
    one per line, so that every dangling name occurs in it; no warning is
    logged when there is no dangling name. The errors of the result are
    what the classifier returned, whatever the dangling references are: no
    error when the classifier found none. On a finite node structure the
    run returns. *)
Theorem dangling_references_are_warned env U cv fuel fileNames ps :
  let p := createProgram env (normalizePath env <$> fileNames) in
  let found := getCompilerErrors (app env) p (includedSourceFiles env p) in
  confined U cv →
  (∀ sf, sf ∈ getSourceFiles p → sf_node sf ∈ U) →
  (length U < fuel)%nat →
  ∃ w1 res w',
    compile env fuel cv (trigger env EVENT_BEGIN None (newContext env p ps))
      = Some (found, w1)
    ∧ convert env fuel cv fileNames ps = Some (res, w')
    ∧ errors res = found
    ∧ (found = [] → errors res = [])
    ∧ let w2 := (resolve env w1).2 in
      let dangling := getDanglingReferences env (project (store w2)) in
      (∃ before, trace w2 = before ++ [Triggered EVENT_RESOLVE_END None]
                 ∧ warnings before = [])
      ∧ w' = trigger env EVENT_END None
               (if has_length dangling then warn (danglingMessage dangling) w2 else w2)
      ∧ trace w' = trace w2
                   ++ (if has_length dangling
                       then [Warned (danglingMessage dangling)] else [])
                   ++ [Triggered EVENT_END None]
      ∧ warnings (trace w') =
          (if has_length dangling then [danglingMessage dangling] else [])
      ∧ (dangling = [] → warnings (trace w') = [])
      ∧ (dangling ≠ [] →
         ∃ message,
           warnings (trace w') = [message]
           ∧ message =
               String.concat (String (Ascii.ascii_of_nat 10) EmptyString)
                 ([ "Some names refer to reflections that do not exist.";
                    "This can be caused by exporting a reflection only under a different name than it is declared when excludeNotExported is set";
                    "or by a plugin removing reflections without removing references. The names that cannot be resolved are:"
                  ]%string ++ dangling)
           ∧ ∀ name, name ∈ dangling →
                     ∃ pre post, message = pre +:+ name +:+ post).
Proof.
  intros p found Hconf HU Hfuel. unfold convert. fold p.
  set (w0 := trigger env EVENT_BEGIN None (newContext env p ps)).
  destruct (compile_returns U env cv fuel w0 Hconf HU Hfuel) as [[errs w1] Hcompile].
  rewrite Hcompile.
  apply compile_found in Hcompile as [-> (_ & _ & _ & es & Htr1 & Hes)].
  change (program w0) with p. fold found.
  destruct (resolve_trace env w1) as (fired & Htr2 & _ & _ & Hproj).
  destruct (resolve env w1) as [proj w2] eqn:Hres.
  cbn [fst snd] in Htr2, Hproj |- *. subst proj.
  set (dangling := getDanglingReferences env (project (store w2))).
  set (before := trace w1 ++ [Triggered EVENT_RESOLVE_BEGIN None]
                   ++ ((λ kr, Triggered EVENT_RESOLVE (Some kr)) <$> fired)).
  assert (Hbefore : warnings before = []).
  { subst before. rewrite Htr1, !warnings_app, warnings_fired.
    by rewrite (warnings_node_entries es Hes). }
  assert (Hw2 : trace w2 = before ++ [Triggered EVENT_RESOLVE_END None]).
  { subst before. rewrite Htr2. by rewrite <- !app_assoc. }
  eexists w1, _, _. split; [done|].
  split; [done|]. split; [done|]. split; [done|].
  cbn zeta. rewrite !Hres. cbn [snd]. fold dangling.
  split; [by exists before|]. split; [done|].
  assert (Htr : trace (trigger env EVENT_END None
                   (if has_length dangling then warn (danglingMessage dangling) w2 else w2))
                = trace w2
                  ++ (if has_length dangling
                      then [Warned (danglingMessage dangling)] else [])
                  ++ [Triggered EVENT_END None]).
  { rewrite trace_trigger. destruct (has_length dangling); cbn [trace warn log].
    - by rewrite <- app_assoc.
    - done. }
  split; [exact Htr|].
  assert (Hwarn : warnings (trace (trigger env EVENT_END None
                     (if has_length dangling
                      then warn (danglingMessage dangling) w2 else w2)))
                  = if has_length dangling then [danglingMessage dangling] else []).
  { rewrite Htr, Hw2, !warnings_app, Hbefore.
    destruct (has_length dangling); done. }
  split; [exact Hwarn|]. rewrite Hwarn. split.
  - intros ->. reflexivity.
  - intros Hsome. exists (danglingMessage dangling).
    split; [by destruct dangling|]. split; [reflexivity|].
    intros name Hname. unfold danglingMessage.
    apply concat_mentions, elem_of_app. by right.
Qed.

End Pipeline.

(** ** The properties at work on the small instances *)

Example history_chains :
  a_id <$> typeNodeConverters (after Examples.history) = [2; 1; 3]%N
  ∧ a_id <$> typeTypeConverters (after Examples.history) = [1; 3]%N.
Proof. split; reflexivity. Qed.

Example convertType_array_node :
  (convertType Examples.quiet (after Examples.history)
     (Some (mkNode 5 174)) (Some 7%N) Examples.start).1 = Some "array"%string.
Proof. reflexivity. Qed.

Example convertType_literal_type :
  convertType Examples.quiet (after Examples.history) None (Some 7%N) Examples.start
  = (Some "literal"%string,
     logs [SupportsTypeAsked 1; ConvertTypeBy 1] Examples.start).
Proof. reflexivity. Qed.



Lemma cyclic_confined :
  confined [mkNode 1 290; Examples.alias_A] Examples.cyclic.
Proof.
  intros node c Hnode Hc.
  apply elem_of_cons in Hnode as [->|Hnode]; [vm_compute in Hc; discriminate|].
  apply list_elem_of_singleton in Hnode as ->.
  vm_compute in Hc. injection Hc as <-.
  split; [right; left|]. intros r s. exact I.
Defined.

Lemma convertNode_cycle_guard_witness :
  confined [mkNode 1 290; Examples.alias_A] Examples.cyclic
  ∧ ∃ r w', convertNode 3 Examples.cyclic Examples.alias_A Examples.start = Some (r, w').
Proof.
  split; [exact cyclic_confined|].
  apply (proj2 (convertNode_cycle_guard Examples.cyclic) _ cyclic_confined).
  - right. left.
  - cbn. lia.
Defined.

Lemma start_well_formed : well_formed Examples.start.
Proof. unfold well_formed. rewrite elem_of_dom. by eexists. Defined.

Lemma convertNode_restores_visitStack_witness :
  well_formed Examples.start
  ∧ ∃ r w', convertNode 3 Examples.cyclic Examples.alias_A Examples.start = Some (r, w')
            ∧ visitStack w' = visitStack Examples.start
            ∧ visited w' = visited Examples.start.
Proof.
  split; [exact start_well_formed|].
  destruct (convertNode 3 Examples.cyclic Examples.alias_A Examples.start)
    as [[r w']|] eqn:Hcall; [|vm_compute in Hcall; discriminate].
  exists r, w'. split; [reflexivity|].
  destruct (convertNode_restores_visitStack _ _ _ _ _ _ start_well_formed Hcall)
    as (Hstack & _ & Hvisited & _).
  split; [exact Hstack|exact Hvisited].
Defined.

Lemma compile_returns_diagnostics_witness :
  compile Examples.linking 0 Examples.cyclic
          (newContext Examples.linking Examples.broken_options tt)
  = Some ([Examples.bad_option], newContext Examples.linking Examples.broken_options tt).
Proof.
  apply (proj1 (compile_returns_diagnostics Examples.linking 0 Examples.cyclic)
           (newContext Examples.linking Examples.broken_options tt)).
  vm_compute. discriminate.
Defined.

Lemma dangling_references_are_warned_witness :
  confined [mkNode 1 290; Examples.alias_A] Examples.cyclic
  ∧ ∃ res w', convert Examples.dangling 3 Examples.cyclic ["src/a.ts"%string] tt
              = Some (res, w')
              ∧ errors res = []
              ∧ getDanglingReferences Examples.dangling (result_project res)
                = ["Missing"%string]
              ∧ ∃ message pre post,
                  warnings (trace w') = [message]
                  ∧ message = pre +:+ "Missing"%string +:+ post.
Proof.
  split; [exact cyclic_confined|].
  destruct (dangling_references_are_warned Examples.dangling
              [mkNode 1 290; Examples.alias_A] Examples.cyclic 3
              ["src/a.ts"%string] tt cyclic_confined)
    as (w1 & res & w' & Hcompile & Hrun & _ & Hnone & _ & _ & _ & _ & _ & Hsome).
  - intros sf Hsf. apply list_elem_of_singleton in Hsf as ->. left.
  - cbn. lia.
  - exists res, w'. split; [exact Hrun|]. split; [apply Hnone; reflexivity|].
    vm_compute in Hcompile. injection Hcompile as <-.
    split.
    { vm_compute in Hrun. injection Hrun as <- _. reflexivity. }
    destruct Hsome as (message & Hwarned & _ & Hnames).
    + vm_compute. discriminate.
    + destruct (Hnames "Missing"%string) as (pre & post & Hmessage).
      * vm_compute. left.
      * by exists message, pre, post.
Defined.


(** C8 does not hold as written: a run whose options are in error goes
    through the resolve pass all the same, warns about the dangling name,
    and returns a list of errors that is not empty. *)
Lemma run_with_diagnostics_resolves_and_warns :
  ∃ res w',
    convert Examples.linking 1 Examples.cyclic ["src/a.ts"%string] tt = Some (res, w')
    ∧ trace w' = [ Triggered EVENT_BEGIN None;
                   Triggered EVENT_RESOLVE_BEGIN None;
                   Triggered EVENT_RESOLVE_END None;
                   Warned (danglingMessage ["Missing"%string]);
                   Triggered EVENT_END None ]
    ∧ getDanglingReferences Examples.linking (result_project res) = ["Missing"%string]
    ∧ errors res = [Examples.bad_option]
    ∧ errors res ≠ [].
Proof.
  eexists _, _. split; [vm_compute; reflexivity|].
  split; [vm_compute; reflexivity|].
  split; [vm_compute; reflexivity|].
  split; [reflexivity|discriminate].
Qed.

(** * Further properties *)

(** ** The node dispatch table *)

Section NodeTable.

Context {TsType DocType PluginState : Type}.
Implicit Types (cv : Converter TsType DocType PluginState)
  (c : ConverterNodeComponent PluginState).

Lemma lookup_foldl_insert {V} (v : V) (ks : list N) (m : gmap N V) (k : N) :
  foldl (λ m k, <[k := v]> m) m ks !! k =
    if bool_decide (k ∈ ks) then Some v else m !! k.
Proof.
  revert m. induction ks as [|k' ks IH]; intros m; cbn [foldl]; [done|].
  rewrite IH. destruct (decide (k = k')) as [->|Hne].
  - rewrite lookup_insert_eq, (bool_decide_eq_true_2 (k' ∈ k' :: ks)) by by left.
    by case_bool_decide.
  - rewrite lookup_insert_ne by done.
    rewrite (bool_decide_ext (k ∈ k' :: ks) (k ∈ ks)); [done|].
    rewrite elem_of_cons. split; [by intros [?|?]|by right].
Qed.

Lemma lookup_addNodeConverter c cv (k : N) :
  nodeConverters (addNodeConverter c cv) !! k =
    (if bool_decide (k ∈ supports c) then Some c else nodeConverters cv !! k).
Proof. apply lookup_foldl_insert. Qed.

(** X1. Registering a node converter maps every kind it supports to it,
    replacing whatever converter handled the kind before, and leaves every
    other kind and both type chains as they were. *)
Theorem addNodeConverter_last_writer_wins c cv (k : N) :
  nodeConverters (addComponent (NodeComponent c) cv) !! k =
    (if bool_decide (k ∈ supports c) then Some c else nodeConverters cv !! k)
  ∧ typeNodeConverters (addComponent (NodeComponent c) cv) = typeNodeConverters cv
  ∧ typeTypeConverters (addComponent (NodeComponent c) cv) = typeTypeConverters cv.
Proof.
  split; [|done]. apply lookup_addNodeConverter.
Qed.

Lemma lookup_removeNodeConverter c cv (k : N) :
  nodeConverters (removeNodeConverter c cv) !! k =
    match nodeConverters cv !! k with
    | Some c' => if bool_decide (nc_id c' = nc_id c) then None else Some c'
    | None => None
    end.
Proof.
  cbn. rewrite map_lookup_filter.
  destruct (nodeConverters cv !! k) as [c'|]; cbn; [|done].
  case_bool_decide; [by rewrite option_guard_False by naive_solver|].
  by rewrite option_guard_True.
Qed.

(** X2. Removing a node converter unmaps every kind that is mapped to it
    and no other kind. In particular, after a converter is registered and
    then removed, the kinds it supports have no converter at all: a
    converter that handled one of them before the registration does not
    come back. *)
Theorem removeNodeConverter_unmaps_its_kinds c cv (k : N) :
  nodeConverters (removeComponent (Some (NodeComponent c)) cv) !! k =
    match nodeConverters cv !! k with
    | Some c' => if bool_decide (nc_id c' = nc_id c) then None else Some c'
    | None => None
    end
  ∧ nodeConverters
      (removeComponent (Some (NodeComponent c)) (addComponent (NodeComponent c) cv)) !! k =
    (if bool_decide (k ∈ supports c) then None
     else nodeConverters (removeComponent (Some (NodeComponent c)) cv) !! k).
Proof.
  split; [apply lookup_removeNodeConverter|].
  cbn [removeComponent addComponent].
  rewrite !lookup_removeNodeConverter, lookup_addNodeConverter.
  case_bool_decide; [|done]. by rewrite bool_decide_eq_true_2.
Qed.

End NodeTable.

(** ** Registering and removing type converters *)

Lemma sort_insert_Permutation {A} (cmp : A → A → Z) (x : A) (l : list A) :
  sort_insert cmp x l ≡ₚ x :: l.
Proof.
  induction l as [|y l IH]; cbn; [done|].
  case_match; [done|]. rewrite IH. apply Permutation_swap.
Qed.

Lemma Array_sort_Permutation {A} (cmp : A → A → Z) (l : list A) :
  Array_sort cmp l ≡ₚ l.
Proof.
  induction l as [|x l IH]; [done|].
  change (Array_sort cmp (x :: l)) with (sort_insert cmp x (Array_sort cmp l)).
  by rewrite sort_insert_Permutation, IH.
Qed.

Section TypeChains.

Context {TsType DocType PluginState : Type}.
Implicit Types (cv : Converter TsType DocType PluginState)
  (c : ConverterTypeComponent TsType DocType PluginState).

Lemma Converter_eq cv cv' :
  nodeConverters cv = nodeConverters cv' →
  typeNodeConverters cv = typeNodeConverters cv' →
  typeTypeConverters cv = typeTypeConverters cv' →
  cv = cv'.
Proof. destruct cv, cv'; cbn. by intros -> -> ->. Qed.

(** X3. Registering a type converter never drops or duplicates an entry.
    A converter that has both [supportsNode] and [convertNode] is entered in
    the node chain, once, with its identity, its priority and these two
    members, and the chain holds what it held besides; likewise for
    [supportsType] and [convertType] and the type chain. A converter with
    only one member of a pair is not entered in that chain. The node table
    is left alone. *)
Theorem addTypeConverter_enters_capable_chains c cv :
  typeNodeConverters (addComponent (TypeComponent c) cv)
    ≡ₚ typeNodeConverters cv ++ option_list (asTypeNodeConverter c)
  ∧ typeTypeConverters (addComponent (TypeComponent c) cv)
    ≡ₚ typeTypeConverters cv ++ option_list (asTypeTypeConverter c)
  ∧ (∀ s k, tc_supportsNode c = Some s → tc_convertNode c = Some k →
     typeNodeConverters (addComponent (TypeComponent c) cv)
       ≡ₚ mkAffinity (tc_id c) (priority c) s k :: typeNodeConverters cv)
  ∧ (∀ s k, tc_supportsType c = Some s → tc_convertType c = Some k →
     typeTypeConverters (addComponent (TypeComponent c) cv)
       ≡ₚ mkAffinity (tc_id c) (priority c) s k :: typeTypeConverters cv)
  ∧ (tc_supportsNode c = None ∨ tc_convertNode c = None →
     typeNodeConverters (addComponent (TypeComponent c) cv) = typeNodeConverters cv)
  ∧ (tc_supportsType c = None ∨ tc_convertType c = None →
     typeTypeConverters (addComponent (TypeComponent c) cv) = typeTypeConverters cv)
  ∧ nodeConverters (addComponent (TypeComponent c) cv) = nodeConverters cv.
Proof.
  cbn [addComponent].
  rewrite typeNodeConverters_add, typeTypeConverters_add.
  split_and!.
  - destruct (asTypeNodeConverter c); cbn.
    + apply Array_sort_Permutation.
    + by rewrite app_nil_r.
  - destruct (asTypeTypeConverter c); cbn.
    + apply Array_sort_Permutation.
    + by rewrite app_nil_r.
  - intros s k Hs Hk. unfold asTypeNodeConverter. rewrite Hs, Hk.
    rewrite Array_sort_Permutation. symmetry. apply Permutation_cons_append.
  - intros s k Hs Hk. unfold asTypeTypeConverter. rewrite Hs, Hk.
    rewrite Array_sort_Permutation. symmetry. apply Permutation_cons_append.
  - unfold asTypeNodeConverter. intros [-> | ->]; [done|].
    by destruct (tc_supportsNode c).
  - unfold asTypeTypeConverter. intros [-> | ->]; [done|].
    by destruct (tc_supportsType c).
  - unfold addTypeConverter.
    by destruct (asTypeNodeConverter c), (asTypeTypeConverter c).
Qed.

Lemma remove_first_others {S C} (i : N) (chain : list (Affinity S C)) :
  filter (λ e, a_id e ≠ i) (remove_first (λ e, bool_decide (a_id e = i)) chain)
  = filter (λ e, a_id e ≠ i) chain.
Proof.
  induction chain as [|e chain IH]; [done|]. cbn [remove_first].
  case_bool_decide as He.
  - by rewrite (filter_cons_False _ e) by naive_solver.
  - by rewrite !filter_cons_True, IH by done.
Qed.

Lemma remove_first_one {S C} (i : N) (chain : list (Affinity S C)) :
  length (filter (λ e, a_id e = i) (remove_first (λ e, bool_decide (a_id e = i)) chain))
  = pred (length (filter (λ e, a_id e = i) chain)).
Proof.
  induction chain as [|e chain IH]; [done|]. cbn [remove_first].
  case_bool_decide as He.
  - by rewrite (filter_cons_True _ e) by done.
  - by rewrite !filter_cons_False by done.
Qed.

(** What [indexOf] and [splice] do together: the first element that
    matches goes, everything else stays where it is. *)
Lemma remove_first_split {A} (same : A → bool) (before later : list A) (x : A) :
  Forall (λ y, same y = false) before → same x = true →
  remove_first same (before ++ x :: later) = before ++ later.
Proof.
  intros Hbefore Hx.
  induction before as [|y before IH]; simpl.
  - by rewrite Hx.
  - apply Forall_cons in Hbefore as [Hy Hbefore]. by rewrite Hy, IH.
Qed.

(** X4. Removing a type converter takes its first occurrence out of each
    chain: when the chain is some entries of other converters, then an
    entry of this converter, then the rest, it becomes those entries
    followed by the rest. So the entries of the other converters keep their
    places, and of the converter's own entries exactly one goes: an object
    registered twice is still in the chain after one removal. Removing a
    converter that is in neither chain changes nothing. *)
Theorem removeTypeConverter_removes_first_occurrence c cv :
  let cv' := removeComponent (Some (TypeComponent c)) cv in
  let others {S C} (chain : list (Affinity S C)) :=
    filter (λ e, a_id e ≠ tc_id c) chain in
  let own {S C} (chain : list (Affinity S C)) :=
    length (filter (λ e, a_id e = tc_id c) chain) in
  (∀ before e later,
     typeNodeConverters cv = before ++ e :: later →
     Forall (λ x, a_id x ≠ tc_id c) before → a_id e = tc_id c →
     typeNodeConverters cv' = before ++ later)
  ∧ (∀ before e later,
     typeTypeConverters cv = before ++ e :: later →
     Forall (λ x, a_id x ≠ tc_id c) before → a_id e = tc_id c →
     typeTypeConverters cv' = before ++ later)
  ∧ others (typeNodeConverters cv') = others (typeNodeConverters cv)
  ∧ others (typeTypeConverters cv') = others (typeTypeConverters cv)
  ∧ own (typeNodeConverters cv') = pred (own (typeNodeConverters cv))
  ∧ own (typeTypeConverters cv') = pred (own (typeTypeConverters cv))
  ∧ nodeConverters cv' = nodeConverters cv
  ∧ (own (typeNodeConverters cv) = 0%nat → own (typeTypeConverters cv) = 0%nat →
     cv' = cv).
Proof.
  intros cv' others own. subst cv' others own. cbn [removeComponent].
  unfold removeTypeConverter, is_component. cbn [typeNodeConverters typeTypeConverters nodeConverters].
  assert (Hfirst : ∀ S C (chain before later : list (Affinity S C)) e,
            chain = before ++ e :: later →
            Forall (λ x, a_id x ≠ tc_id c) before → a_id e = tc_id c →
            remove_first (λ e, bool_decide (a_id e = tc_id c)) chain = before ++ later).
  { intros S C chain before later e -> Hbefore He.
    apply remove_first_split.
    - eapply Forall_impl; [exact Hbefore|].
      intros x Hx. by apply bool_decide_eq_false.
    - by apply bool_decide_eq_true. }
  split; [intros before e later; apply Hfirst|].
  split; [intros before e later; apply Hfirst|].
  split_and!; try apply remove_first_others; try apply remove_first_one; [done|].
  intros Hn Ht.
  assert (Habsent : ∀ S C (chain : list (Affinity S C)),
            length (filter (λ e, a_id e = tc_id c) chain) = 0%nat →
            remove_first (λ e, bool_decide (a_id e = tc_id c)) chain = chain).
  { intros S C chain Hlen. apply remove_first_absent. intros e He.
    apply bool_decide_eq_false. intros Hid.
    apply nil_length_inv in Hlen.
    assert (e ∈ filter (λ e, a_id e = tc_id c) chain) as Hin
      by by apply list_elem_of_filter.
    rewrite Hlen in Hin. by apply elem_of_nil in Hin. }
  rewrite (Habsent _ _ _ Hn), (Habsent _ _ _ Ht). by destruct cv.
Qed.

(** Inserting into a descending chain an element that is at least as high
    as its head puts it in front. *)
Lemma sort_insert_front {S C} (x : Affinity S C) (l : list (Affinity S C)) :
  Forall (λ y, a_priority y ≤ a_priority x) l →
  sort_insert by_priority x l = x :: l.
Proof.
  destruct 1 as [|y l Hy _]; cbn; [done|].
  unfold by_priority. by rewrite (proj2 (Z.leb_le _ _)) by lia.
Qed.

Lemma Array_sort_sorted {S C} (l : list (Affinity S C)) :
  descending l → Array_sort by_priority l = l.
Proof.
  unfold descending. induction 1 as [|x l Hl IH Hx]; [done|].
  change (Array_sort by_priority (x :: l))
    with (sort_insert by_priority x (Array_sort by_priority l)).
  rewrite IH. by apply sort_insert_front.
Qed.

Lemma remove_first_sort_insert {S C} (same : Affinity S C → bool)
    (x : Affinity S C) (l : list (Affinity S C)) :
  same x = false → descending l →
  remove_first same (sort_insert by_priority x l)
  = sort_insert by_priority x (remove_first same l).
Proof.
  intros Hx. unfold descending. induction 1 as [|y l Hl IH Hy]; cbn.
  - by rewrite Hx.
  - destruct (Z.leb_spec (by_priority x y) 0) as [Hle|Hgt]; cbn; rewrite ?Hx.
    + destruct (same y) eqn:Hsy; cbn.
      * symmetry. apply sort_insert_front.
        eapply Forall_impl; [exact Hy|]. unfold by_priority in Hle. cbn. intros; lia.
      * by rewrite (proj2 (Z.leb_le _ _) Hle).
    + destruct (same y) eqn:Hsy; cbn.
      * done.
      * rewrite (proj2 (Z.leb_gt _ _)) by lia. by rewrite IH.
Qed.

Lemma remove_first_pushed {S C} (same : Affinity S C → bool)
    (e : Affinity S C) (chain : list (Affinity S C)) :
  same e = true → (∀ y, y ∈ chain → same y = false) →
  remove_first same (Array_sort by_priority (chain ++ [e]))
  = Array_sort by_priority chain.
Proof.
  intros He. unfold Array_sort. rewrite foldr_app. cbn [foldr].
  induction chain as [|y chain IH]; intros Hchain; cbn [foldr].
  - cbn. by rewrite He.
  - rewrite remove_first_sort_insert.
    + rewrite IH; [done|]. intros z Hz. apply Hchain. by right.
    + apply Hchain. by left.
    + pose proof (Array_sort_descending (chain ++ [e])) as Hd.
      unfold Array_sort in Hd. rewrite foldr_app in Hd. exact Hd.
Qed.

(** X5. Registering a type converter that is in neither chain and removing
    it again gives back the converter as it was, after any history of
    registrations and removals. *)
Theorem removeTypeConverter_undoes_addTypeConverter
    (ops : list (Registration TsType DocType PluginState)) c :
  (∀ e, e ∈ typeNodeConverters (after ops) → a_id e ≠ tc_id c) →
  (∀ e, e ∈ typeTypeConverters (after ops) → a_id e ≠ tc_id c) →
  removeComponent (Some (TypeComponent c))
    (addComponent (TypeComponent c) (after ops)) = after ops.
Proof.
  intros Hn Ht. destruct (after_descending ops) as [Hdn Hdt].
  cbn [removeComponent addComponent]. unfold removeTypeConverter.
  rewrite typeNodeConverters_add, typeTypeConverters_add.
  assert (Hundo : ∀ S C (as_entry : option (Affinity S C)) (chain : list (Affinity S C)),
    (∀ e, as_entry = Some e → a_id e = tc_id c) →
    descending chain → (∀ e, e ∈ chain → a_id e ≠ tc_id c) →
    remove_first (is_component c)
      (match as_entry with
       | Some e => Array_sort by_priority (chain ++ [e])
       | None => chain
       end) = chain).
  { intros S C [e|] chain Hid Hdesc Habsent.
    - rewrite remove_first_pushed.
      + by apply Array_sort_sorted.
      + apply bool_decide_eq_true. by apply Hid.
      + intros y Hy. apply bool_decide_eq_false. by apply Habsent.
    - apply remove_first_absent. intros y Hy.
      apply bool_decide_eq_false. by apply Habsent. }
  apply Converter_eq; cbn [nodeConverters typeNodeConverters typeTypeConverters].
  - unfold addTypeConverter.
    by destruct (asTypeNodeConverter c), (asTypeTypeConverter c).
  - exact (Hundo _ _ _ _ (asTypeNodeConverter_id c) Hdn Hn).
  - exact (Hundo _ _ _ _ (asTypeTypeConverter_id c) Hdt Ht).
Qed.

End TypeChains.

Lemma removeTypeConverter_undoes_addTypeConverter_witness :
  removeComponent (Some (TypeComponent Examples.array))
    (addComponent (TypeComponent Examples.array)
       (after [Register Examples.literal; Register Examples.fallback]))
  = after [Register Examples.literal; Register Examples.fallback].
Proof.
  apply removeTypeConverter_undoes_addTypeConverter.
  - intros e He. vm_compute in He.
    repeat (apply elem_of_cons in He as [->|He]); try discriminate.
    by apply elem_of_nil in He.
  - intros e He. vm_compute in He.
    repeat (apply elem_of_cons in He as [->|He]); try discriminate.
    by apply elem_of_nil in He.
Defined.

(** ** Nodes without a converter *)

Section UnsupportedNodes.

Context {TsType DocType PluginState : Type}.
Implicit Types (w : World PluginState) (cv : Converter TsType DocType PluginState).

(** X6. A node whose kind has no converter is not an error: [convertNode]
    returns no reflection, and the store, the context's visit stack and its
    contents are as before; the call is recorded and nothing is dispatched. *)
Theorem convertNode_unsupported_kind fuel cv node w :
  nodeConverters cv !! kind node = None →
  well_formed w →
  ∃ w', convertNode (Datatypes.S fuel) cv node w = Some (None, w')
        ∧ store w' = store w
        ∧ visitStack w' = visitStack w
        ∧ visited w' = visited w
        ∧ trace w' = trace w ++ [ConvertNodeCalled node].
Proof.
  intros Hkind Hwf. cbn [convertNode].
  set (w0 := log (ConvertNodeCalled node) w).
  destruct (includes (visited w0) node).
  { by exists w0. }
  unfold dispatch. rewrite Hkind.
  eexists. split; [done|].
  destruct (enter_fresh node w0) as (_ & _ & Hold & _ & Hstore & Htrace).
  split_and!; [exact Hstore|done| |exact Htrace].
  unfold visited. cbn [set_visitStack heap visitStack].
  change (visitStack w0) with (visitStack w). by rewrite (Hold _ Hwf).
Qed.

End UnsupportedNodes.

Lemma convertNode_unsupported_kind_witness :
  ∃ w', convertNode 1 Examples.cyclic (mkNode 1 290) Examples.start = Some (None, w')
        ∧ visited w' = visited Examples.start.
Proof.
  destruct (convertNode_unsupported_kind 0 Examples.cyclic (mkNode 1 290)
              Examples.start eq_refl start_well_formed)
    as (w' & Hcall & _ & _ & Hvisited & _).
  exists w'. split; [exact Hcall|exact Hvisited].
Defined.

(** ** Converting several types at once *)

Section ConvertTypes.

Context {TsType DocType PluginState : Type}.
Implicit Types (w : World PluginState) (cv : Converter TsType DocType PluginState)
  (env : Env TsType PluginState).

Lemma omap_ext_in {A B} (f g : A → option B) (l : list A) :
  (∀ x, x ∈ l → f x = g x) → omap f l = omap g l.
Proof.
  induction l as [|x l IH]; intros Hfg; [done|]. cbn.
  rewrite (Hfg x) by left. rewrite IH; [done|].
  intros y Hy. apply Hfg. by right.
Qed.

Lemma length_omap_le {A B} (f : A → option B) (l : list A) :
  (length (omap f l) ≤ length l)%nat.
Proof.
  induction l as [|x l IH]; [done|]. cbn. destruct (f x); cbn; lia.
Qed.

Lemma length_lodash_zip {A B} (xs : list A) (ys : list B) :
  length (lodash_zip xs ys) = Nat.max (length xs) (length ys).
Proof. unfold lodash_zip. by rewrite length_fmap, length_seq. Qed.

Lemma lookup_lodash_zip {A B} (xs : list A) (ys : list B) (i : nat) :
  (i < Nat.max (length xs) (length ys))%nat →
  lodash_zip xs ys !! i = Some (xs !! i, ys !! i).
Proof.
  intros Hi. unfold lodash_zip.
  rewrite list_lookup_fmap, lookup_seq_lt by done. reflexivity.
Qed.

Section Pairs.

Variable convertOne :
  option Node → option TsType → World PluginState → option DocType * World PluginState.

Lemma convertPairs_app pairs1 pairs2 w :
  convertPairs convertOne (pairs1 ++ pairs2) w =
    ((convertPairs convertOne pairs1 w).1
       ++ (convertPairs convertOne pairs2 (convertPairs convertOne pairs1 w).2).1,
     (convertPairs convertOne pairs2 (convertPairs convertOne pairs1 w).2).2).
Proof.
  revert w. induction pairs1 as [|[n t] pairs1 IH]; intros w.
  - cbn. by destruct (convertPairs convertOne pairs2 w).
  - rewrite <- app_comm_cons. cbn [convertPairs].
    destruct (convertOne n t w) as [converted w1].
    rewrite IH.
    destruct (convertPairs convertOne pairs1 w1) as [r1 w2]. cbn [fst snd].
    destruct (convertPairs convertOne pairs2 w2) as [r2 w3]. cbn [fst snd].
    by destruct converted.
Qed.

Lemma convertPairs_one node type w :
  convertPairs convertOne [(node, type)] w =
    (option_list (convertOne node type w).1, (convertOne node type w).2).
Proof. cbn. by destruct (convertOne node type w) as [[t|] w1]. Qed.

(** The context in which the pair at position [i] is converted. *)
Lemma convertPairs_step pairs w (i : nat) node type :
  pairs !! i = Some (node, type) →
  (convertPairs convertOne (take (S i) pairs) w).2 =
    (convertOne node type (convertPairs convertOne (take i pairs) w).2).2.
Proof.
  intros Hi. rewrite (take_S_r _ _ _ Hi), convertPairs_app, convertPairs_one. done.
Qed.

Lemma convertPairs_results pairs w :
  (convertPairs convertOne pairs w).1 =
    omap (λ i, p ← pairs !! i;
               (convertOne p.1 p.2 (convertPairs convertOne (take i pairs) w).2).1)
         (seq 0 (length pairs)).
Proof.
  induction pairs as [|[n t] pairs IH] using rev_ind; [done|].
  rewrite convertPairs_app, convertPairs_one. cbn [fst snd].
  rewrite length_app, Nat.add_1_r, seq_S, omap_app. cbn [Nat.add].
  f_equal.
  - rewrite IH. apply omap_ext_in. intros i Hi.
    apply elem_of_seq in Hi as [_ Hi]. cbn [Nat.add] in Hi.
    rewrite lookup_app_l by done.
    by rewrite take_app_le by lia.
  - cbn [omap list_omap].
    rewrite lookup_app_r, Nat.sub_diag by done. cbn.
    rewrite take_app_length.
    by destruct (convertOne n t _) as [[d|] w1].
Qed.

End Pairs.

(** X7. [convertTypes] pairs the nodes and the types position by position,
    padding the shorter sequence with nothing, and converts the pairs one
    after the other, whatever a single conversion returns and whatever it
    does to the context: the pair at a position is converted in the context
    that the conversions before it have left, and the result holds the
    types that were produced, in order, without the failures. So it holds
    at most as many types as the longer sequence has elements, and two
    empty sequences give no type and leave the context as it is. The
    single conversion that [convertTypes] uses is [convertType]. *)
Theorem convertTypes_keeps_successes
    (convertOne : option Node → option TsType → World PluginState
                  → option DocType * World PluginState)
    (nodes : list Node) (types : list TsType) w :
  let n := Nat.max (length nodes) (length types) in
  let pairs := lodash_zip nodes types in
  let context_at i := (convertPairs convertOne (take i pairs) w).2 in
  let run := convertPairs convertOne pairs w in
  length pairs = n
  ∧ (∀ i, (i < n)%nat → pairs !! i = Some (nodes !! i, types !! i))
  ∧ context_at 0%nat = w
  ∧ (∀ i, (i < n)%nat →
       context_at (S i) = (convertOne (nodes !! i) (types !! i) (context_at i)).2)
  ∧ run.2 = context_at n
  ∧ run.1 = omap (λ i, (convertOne (nodes !! i) (types !! i) (context_at i)).1)
                 (seq 0 n)
  ∧ (length run.1 ≤ n)%nat
  ∧ convertPairs convertOne (lodash_zip [] []) w = ([], w)
  ∧ (∀ env cv, convertTypes env cv nodes types w
               = convertPairs (convertType env cv) pairs w).
Proof.
  intros n pairs context_at run.
  assert (Hlen : length pairs = n) by apply length_lodash_zip.
  assert (Hpairs : ∀ i, (i < n)%nat → pairs !! i = Some (nodes !! i, types !! i)).
  { intros i Hi. by apply lookup_lodash_zip. }
  assert (Hres : run.1 = omap (λ i, (convertOne (nodes !! i) (types !! i)
                                       (context_at i)).1) (seq 0 n)).
  { subst run. rewrite convertPairs_results, Hlen. apply omap_ext_in.
    intros i Hi. apply elem_of_seq in Hi as [_ Hi]. cbn [Nat.add] in Hi.
    by rewrite (Hpairs i Hi). }
  split_and!; try done.
  - intros i Hi. subst context_at. cbn beta.
    by apply convertPairs_step, Hpairs.
  - subst context_at run. cbn beta. by rewrite <- Hlen, firstn_all.
  - rewrite Hres. etrans; [apply length_omap_le|]. by rewrite length_seq.
Qed.

End ConvertTypes.

Example convertTypes_pads_the_shorter :
  (convertTypes Examples.quiet (after Examples.history)
     [mkNode 5 174] [7%N; 7%N; 8%N] Examples.start).1
  = ["array"; "literal"; "unknown"]%string.
Proof. reflexivity. Qed.

(** ** Declarations made from the engine's options *)

(** X8. The declaration made from an engine option keeps its name and its
    short name, is scoped to TypeScript, and takes the key of the
    description as help, the empty string when there is none. It carries a
    map exactly when its type is [Map], and then the map is the option's own
    type: an option whose type is a map, or a type name that is none of
    number, boolean, string, list and object, becomes a [Map] declaration. *)
Theorem createTSDeclaration_fields (o : TSOptions.CommandLineOption) :
  let d := TSOptions.createTSDeclaration o in
  TSOptions.d_name d = TSOptions.name o
  ∧ TSOptions.d_short d = TSOptions.shortName o
  ∧ TSOptions.d_scope d = TSOptions.TypeScript
  ∧ TSOptions.d_help d =
      from_option TSOptions.key EmptyString (TSOptions.description o)
  ∧ TSOptions.d_map d =
      match TSOptions.d_type d with
      | TSOptions.Map => Some (TSOptions.type o)
      | _ => None
      end
  ∧ (TSOptions.d_type d = TSOptions.Map ↔
     ∀ s, s ∈ ["number"; "boolean"; "string"; "list"; "object"]%string →
          TSOptions.type o ≠ TSOptions.TypeName s).
Proof.
  intros d. subst d. unfold TSOptions.createTSDeclaration.
  destruct (TSOptions.description o) as [desc|];
    (destruct (TSOptions.type o) as [s|m]; [|by split_and!]);
    cbn [from_option];
    repeat match goal with
           | |- context [match ?x with _ => _ end] => is_var x; destruct x
           end;
    (split_and!; [done|done|done|done|done|]);
    first
      [ split; [discriminate|]; intros Hall; exfalso;
        eapply Hall; [|reflexivity];
        apply (bool_decide_eq_true_1 _); reflexivity
      | split; [|done]; intros _ s0 Hs0;
        repeat (apply elem_of_cons in Hs0 as [->|Hs0]; [discriminate|]);
        by apply elem_of_nil in Hs0 ].
Qed.

(** ** More on the pipeline *)

Section Runs.

Context {TsType DocType PluginState : Type}.
Implicit Types (w : World PluginState) (cv : Converter TsType DocType PluginState)
  (env : Env TsType PluginState).

Lemma elem_of_first_non_empty {A} (ls : list (list A)) (x : A) :
  x ∈ first_non_empty ls → ∃ l, l ∈ ls ∧ x ∈ l.
Proof.
  induction ls as [|l ls IH]; [by intros ?%elem_of_nil|].
  rewrite first_non_empty_cons. destruct (has_length l).
  - intros Hx. exists l. split; [by left|done].
  - intros (l' & Hl' & Hx)%IH. exists l'. split; [by right|done].
Qed.

Lemma isExcluded_true env (f : SourceFile) :
  isExcluded env f = true ↔
  ∃ pattern, pattern ∈ default [] (exclude (app env))
             ∧ mm_match env pattern (fileName f) = true.
Proof.
  unfold isExcluded. rewrite existsb_exists.
  split; intros (pattern & Hin & Hmatch); exists pattern;
    (split; [by apply list_elem_of_In|done]).
Qed.

Lemma elem_of_includedSourceFiles env (p : Program) (f : SourceFile) :
  f ∈ includedSourceFiles env p ↔
  f ∈ getSourceFiles p
  ∧ ¬ ∃ pattern, pattern ∈ default [] (exclude (app env))
                 ∧ mm_match env pattern (fileName f) = true.
Proof.
  unfold includedSourceFiles.
  rewrite list_elem_of_In, filter_In, <- list_elem_of_In, <- isExcluded_true.
  rewrite negb_true_iff.
  destruct (isExcluded env f); split; intros [Hf Hx]; done.
Qed.

(** X9. The source files that take part in a run are the program's source
    files whose name no exclude pattern matches. The diagnostics that the
    compile phase returns come from the program's four lists and concern
    these files only: each has no file, or its file is a source file of the
    program that no exclude pattern matches. So diagnostics in excluded
    files never block a run: when every diagnostic of the program is in a
    file that some pattern matches, the phase returns none. Without exclude
    patterns every source file is included. *)
Theorem compile_errors_concern_included_files env fuel cv w errs w' :
  let p := program w in
  let patterns := default [] (exclude (app env)) in
  let excluded (f : SourceFile) :=
    ∃ pattern, pattern ∈ patterns ∧ mm_match env pattern (fileName f) = true in
  compile env fuel cv w = Some (errs, w') →
  (∀ f, f ∈ includedSourceFiles env p ↔ f ∈ getSourceFiles p ∧ ¬ excluded f)
  ∧ (∀ d, d ∈ errs →
       (d ∈ getOptionsDiagnostics p ∨ d ∈ getSyntacticDiagnostics p
        ∨ d ∈ getGlobalDiagnostics p ∨ d ∈ getSemanticDiagnostics p)
       ∧ ∀ f, file d = Some f → f ∈ getSourceFiles p ∧ ¬ excluded f)
  ∧ ((∀ d, d ∈ getOptionsDiagnostics p ∨ d ∈ getSyntacticDiagnostics p
           ∨ d ∈ getGlobalDiagnostics p ∨ d ∈ getSemanticDiagnostics p →
           ∃ f, file d = Some f ∧ excluded f) →
     errs = [])
  ∧ (exclude (app env) = None ∨ exclude (app env) = Some [] →
     includedSourceFiles env p = getSourceFiles p).
Proof.
  intros p patterns excluded [-> _]%compile_found. fold p.
  assert (Hincluded : ∀ f, f ∈ includedSourceFiles env p ↔
                           f ∈ getSourceFiles p ∧ ¬ excluded f).
  { intros f. apply elem_of_includedSourceFiles. }
  assert (Herrs : ∀ d,
    d ∈ getCompilerErrors (app env) p (includedSourceFiles env p) →
    (d ∈ getOptionsDiagnostics p ∨ d ∈ getSyntacticDiagnostics p
     ∨ d ∈ getGlobalDiagnostics p ∨ d ∈ getSemanticDiagnostics p)
    ∧ ∀ f, file d = Some f → f ∈ getSourceFiles p ∧ ¬ excluded f).
  { intros d Hd. rewrite getCompilerErrors_cascade in Hd.
    destruct (ignoreCompilerErrors (app env)); [by apply elem_of_nil in Hd|].
    apply elem_of_first_non_empty in Hd as (l & Hl & Hd).
    unfold relevant_categories in Hl.
    apply list_elem_of_fmap in Hl as (category & -> & Hcategory).
    apply list_elem_of_In, filter_In in Hd as [Hd Hrel].
    apply list_elem_of_In in Hd.
    split.
    - unfold categories in Hcategory.
      rewrite !elem_of_cons, elem_of_nil in Hcategory.
      destruct Hcategory as [->|[->|[->|[->|[]]]]]; tauto.
    - intros f Hf. unfold isRelevantError in Hrel. rewrite Hf in Hrel.
      apply bool_decide_eq_true in Hrel. by apply Hincluded. }
  split_and!; [exact Hincluded|exact Herrs| |].
  - intros Hall.
    destruct (getCompilerErrors (app env) p (includedSourceFiles env p))
      as [|d errs] eqn:Hfound; [done|].
    destruct (Herrs d ltac:(by left)) as [Hfrom Hfile].
    destruct (Hall d Hfrom) as (f & Hf & Hexcluded).
    by destruct (Hfile f Hf) as [_ []].
  - intros Hnone. unfold includedSourceFiles.
    assert (Hall : ∀ f, negb (isExcluded env f) = true).
    { intros f. unfold isExcluded. by destruct Hnone as [-> | ->]. }
    clear Hincluded Herrs.
    induction (getSourceFiles p) as [|f fs IH]; [done|].
    cbn. rewrite Hall. by f_equal.
Qed.





(** X11. The observations of a run that returns are, in this order: the
    begin event, the node conversions of the compile phase, the
    resolve-begin event, the resolve events, the resolve-end event, at most
    one warning, and the end event. The project of the result is the
    project as the listeners of the end event leave it. *)
Theorem convert_lifecycle env fuel cv fileNames ps res w' :
  convert env fuel cv fileNames ps = Some (res, w') →
  ∃ conversions fired warned,
    trace w' =
      [Triggered EVENT_BEGIN None]
      ++ conversions
      ++ [Triggered EVENT_RESOLVE_BEGIN None]
      ++ ((λ kr, Triggered EVENT_RESOLVE (Some kr)) <$> fired)
      ++ [Triggered EVENT_RESOLVE_END None]
      ++ (Warned <$> warned)
      ++ [Triggered EVENT_END None]
    ∧ Forall node_entry conversions
    ∧ (length warned ≤ 1)%nat
    ∧ result_project res = project (store w').
Proof.
  unfold convert.
  set (p := createProgram env (normalizePath env <$> fileNames)).
  set (w0 := trigger env EVENT_BEGIN None (newContext env p ps)).
  destruct (compile env fuel cv w0) as [[errs w1]|] eqn:Hcompile; [|done].
  apply compile_found in Hcompile as [_ (_ & _ & _ & es & Htr1 & Hes)].
  destruct (resolve_trace env w1) as (fired & Htr2 & _).
  destruct (resolve env w1) as [proj w2]. cbn [snd] in Htr2.
  intros [= <- <-].
  exists es, fired,
    (if has_length (getDanglingReferences env proj)
     then [danglingMessage (getDanglingReferences env proj)] else []).
  split_and!; [|done|destruct (has_length _); cbn; lia|done].
  rewrite trace_trigger.
  assert (Hw2 : trace w2 =
    [Triggered EVENT_BEGIN None] ++ es ++ [Triggered EVENT_RESOLVE_BEGIN None]
    ++ ((λ kr, Triggered EVENT_RESOLVE (Some kr)) <$> fired)
    ++ [Triggered EVENT_RESOLVE_END None]).
  { rewrite Htr2, Htr1. subst w0. rewrite trace_trigger. cbn.
    by rewrite <- ?app_assoc. }
  destruct (has_length (getDanglingReferences env proj));
    cbn [warn log trace fmap list_fmap]; rewrite Hw2;
    repeat rewrite <- app_assoc; done.
Qed.

Lemma resolveEach_all env (m : JSObject Reflection) keys w :
  (∀ r s, reflections (project (listeners env EVENT_RESOLVE (Some r) s)) =
          reflections (project s)) →
  reflections (project (store w)) = m →
  trace (resolveEach env keys w) =
    trace w ++ omap (λ k, (λ r, Triggered EVENT_RESOLVE (Some (k, r))) <$> m !! k) keys
  ∧ reflections (project (store (resolveEach env keys w))) = m.
Proof.
  intros Hkeep. revert w. induction keys as [|k keys IH]; intros w Hm.
  - cbn. by rewrite app_nil_r.
  - cbn [resolveEach omap list_omap]. rewrite Hm.
    destruct (m !! k) as [r|]; cbn [fmap option_fmap option_map].
    + destruct (IH (trigger env EVENT_RESOLVE (Some (k, r)) w)) as [Htr Hm'].
      { cbn. by rewrite Hkeep. }
      split; [|done]. rewrite Htr, trace_trigger. by rewrite <- app_assoc.
    + by apply IH.
Qed.

Lemma resolved_ids_present (m : JSObject Reflection) (keys : list N) :
  (∀ k, k ∈ keys → is_Some (m !! k)) →
  resolved_ids
    (omap (λ k, (λ r, Triggered EVENT_RESOLVE (Some (k, r))) <$> m !! k) keys)
  = keys.
Proof.
  induction keys as [|k keys IH]; intros Hkeys; [done|].
  destruct (Hkeys k ltac:(by left)) as [r Hr].
  cbn. rewrite Hr. cbn. f_equal. apply IH.
  intros k' Hk'. apply Hkeys. by right.
Qed.

Lemma resolve_events_present (m : JSObject Reflection) (keys : list N) :
  resolve_events
    (omap (λ k, (λ r, Triggered EVENT_RESOLVE (Some (k, r))) <$> m !! k) keys)
  = omap (λ k, (λ r, (k, r)) <$> m !! k) keys.
Proof.
  induction keys as [|k keys IH]; [done|].
  cbn [omap list_omap]. destruct (m !! k) as [r|]; cbn [fmap option_fmap option_map].
  - change (resolve_events (Triggered EVENT_RESOLVE (Some (k, r)) :: ?l))
      with ((k, r) :: resolve_events l). by rewrite IH.
  - exact IH.
Qed.

(** X12. When the listeners of the resolve event leave the mapping of the
    project alone, the resolve pass triggers the resolve event exactly once
    for every reflection of the project and for nothing else, and passes
    the reflection that the mapping holds for the id. The events come in
    the order of the enumeration: first the ids below 2^32 - 1, ascending,
    then the larger ids in the order in which their entries were created. A
    project without reflections gets the resolve-begin and resolve-end
    events only. *)
Theorem resolve_fires_for_every_reflection env w :
  (∀ r s, reflections (project (listeners env EVENT_RESOLVE (Some r) s)) =
          reflections (project s)) →
  let m := reflections (project (store (trigger env EVENT_RESOLVE_BEGIN None w))) in
  let fired := resolved_ids (added w (resolve env w).2) in
  let events := resolve_events (added w (resolve env w).2) in
  added w (resolve env w).2 =
    [Triggered EVENT_RESOLVE_BEGIN None]
    ++ ((λ kr, Triggered EVENT_RESOLVE (Some kr)) <$> events)
    ++ [Triggered EVENT_RESOLVE_END None]
  ∧ fired = events.*1
  ∧ NoDup fired
  ∧ (∀ id r, (id, r) ∈ events ↔ m !! id = Some r)
  ∧ (∀ id, id ∈ fired ↔ is_Some (m !! id))
  ∧ StronglySorted N.lt (filter (λ k, is_array_index k = true) fired)
  ∧ fired = filter (λ k, is_array_index k = true) fired
            ++ filter (λ k, is_array_index k = false) fired
  ∧ filter (λ k, is_array_index k = false) fired
    = filter (λ k, is_array_index k = false) (own_keys m)
  ∧ (NoDup (properties m).*1 →
     filter (λ k, is_array_index k = false) fired
     = filter (λ k, is_array_index k = false) (properties m).*1)
  ∧ (properties m = [] →
     added w (resolve env w).2 =
       [Triggered EVENT_RESOLVE_BEGIN None; Triggered EVENT_RESOLVE_END None]).
Proof.
  intros Hkeep m fired events.
  set (w1 := trigger env EVENT_RESOLVE_BEGIN None w).
  destruct (resolveEach_all env m (for_in_keys m) w1 Hkeep eq_refl) as [Htr _].
  destruct (for_in_keys_enumerates m) as (Hnd & Hdom & Hasc & Hother & Hsplit).
  assert (Hadded : added w (resolve env w).2 =
    [Triggered EVENT_RESOLVE_BEGIN None]
    ++ omap (λ k, (λ r, Triggered EVENT_RESOLVE (Some (k, r))) <$> m !! k)
            (for_in_keys m)
    ++ [Triggered EVENT_RESOLVE_END None]).
  { apply added_app.
    change (trace (resolve env w).2)
      with (trace (resolveEach env (for_in_keys m) w1)
            ++ [Triggered EVENT_RESOLVE_END None]).
    rewrite Htr.
    change (trace w1) with (trace w ++ [Triggered EVENT_RESOLVE_BEGIN None]).
    by rewrite <- !app_assoc. }
  assert (Hpresent : ∀ k, k ∈ for_in_keys m → is_Some (m !! k)).
  { intros k Hk. by apply elem_of_dom_object, Hdom. }
  assert (Hfired : fired = for_in_keys m).
  { subst fired. rewrite Hadded, !resolved_ids_app. cbn. rewrite app_nil_r.
    by apply resolved_ids_present. }
  assert (Hevents : events = omap (λ k, (λ r, (k, r)) <$> m !! k) (for_in_keys m)).
  { subst events. rewrite Hadded, !resolve_events_app, resolve_events_present.
    cbn. by rewrite app_nil_r. }
  assert (Hmember : ∀ id r, (id, r) ∈ events ↔ m !! id = Some r).
  { intros id r. rewrite Hevents, list_elem_of_omap. split.
    - intros (k & _ & Hk). destruct (m !! k) as [r'|] eqn:Hr; [|done].
      cbn in Hk. by simplify_eq.
    - intros Hr. exists id. rewrite Hr. split; [|done].
      by apply Hdom, elem_of_dom_object. }
  split_and!.
  - rewrite Hadded. do 2 f_equal. rewrite Hevents.
    clear -Hpresent. induction (for_in_keys m) as [|k keys IH]; [done|].
    cbn. destruct (m !! k) as [r|]; cbn; rewrite IH; try done;
      intros k' Hk'; apply Hpresent; by right.
  - apply resolved_ids_events.
  - by rewrite Hfired.
  - exact Hmember.
  - intros id. rewrite Hfired, Hdom. apply elem_of_dom_object.
  - by rewrite Hfired.
  - by rewrite Hfired.
  - by rewrite Hfired.
  - intros Hkeys. by rewrite Hfired, Hother, own_keys_NoDup.
  - intros Hempty. rewrite Hadded.
    assert (for_in_keys m = []) as ->; [|done].
    unfold for_in_keys, own_keys. rewrite Hempty. reflexivity.
Qed.

End Runs.

Lemma compile_errors_concern_included_files_witness :
  compile Examples.excluding 0 Examples.cyclic
          (newContext Examples.excluding Examples.broken_files tt)
  = Some ([Examples.semantic_in_b], newContext Examples.excluding Examples.broken_files tt)
  ∧ includedSourceFiles Examples.excluding Examples.broken_files = [Examples.b_ts]
  ∧ ∀ f, file Examples.semantic_in_b = Some f →
         f ∈ [Examples.a_ts; Examples.b_ts]
         ∧ ¬ ∃ pattern, pattern ∈ ["src/a.ts"%string]
                        ∧ String.eqb pattern (fileName f) = true.
Proof.
  split; [reflexivity|]. split; [reflexivity|].
  apply (proj1 (proj2 (compile_errors_concern_included_files Examples.excluding 0
                  Examples.cyclic
                  (newContext Examples.excluding Examples.broken_files tt)
                  [Examples.semantic_in_b] _ eq_refl))).
  by left.
Defined.



Lemma convert_lifecycle_witness :
  ∃ res w', convert Examples.quiet 3 Examples.cyclic ["src/a.ts"%string] tt = Some (res, w')
            ∧ result_project res = project (store w').
Proof.
  destruct (convert Examples.quiet 3 Examples.cyclic ["src/a.ts"%string] tt)
    as [[res w']|] eqn:Hrun; [|vm_compute in Hrun; discriminate].
  destruct (convert_lifecycle _ _ _ _ _ _ _ Hrun) as (_ & _ & _ & _ & _ & _ & Hproject).
  exists res, w'. split; [reflexivity|exact Hproject].
Defined.

Lemma resolve_fires_for_every_reflection_witness :
  resolved_ids (added Examples.late_ids (resolve Examples.quiet Examples.late_ids).2)
  = [1; 2; 4294967296; 4294967295]%N
  ∧ filter (λ k, is_array_index k = false)
      (resolved_ids (added Examples.late_ids (resolve Examples.quiet Examples.late_ids).2))
    = [4294967296; 4294967295]%N.
Proof.
  destruct (resolve_fires_for_every_reflection Examples.quiet Examples.late_ids)
    as (_ & _ & _ & _ & _ & _ & _ & _ & Hlate & _); [done|].
  split; [vm_compute; reflexivity|].
  rewrite Hlate; [reflexivity|].
  do 4 apply NoDup_insert_object. apply NoDup_empty_object.
Defined.



